(** * mirip: package qualifiers, method-scope variable naming and the
    command's output handling

    A shallow embedding of
      - internal/registry/package.go       (Package, Qualifier, uniqueName, Path)
      - internal/registry/method_scope.go  (MethodScope, AddVar and its helpers)
      - main.go                            (run)
    followed by the properties established about them. *)

From Stdlib Require Import ZArith Ascii String List Permutation.
From stdpp Require Import base option list strings gmap pretty.

Set Warnings "-register-all".
Local Open Scope Z_scope.

(** ** Outcomes of Go code

    A Go call either returns, panics (here: a nil-pointer dereference) or
    keeps running.  Loops and recursions without a bound in the source are
    given fuel; [Diverge] is what is left when the fuel is used up. *)

Inductive outcome (A : Type) : Type :=
| Ret (a : A)
| Panic
| Diverge.
Arguments Ret {A} a.
Arguments Panic {A}.
Arguments Diverge {A}.

Global Instance outcome_ret : MRet outcome := λ A a, Ret a.
Global Instance outcome_bind : MBind outcome := λ A B f x,
  match x with
  | Ret a => f a
  | Panic => Panic
  | Diverge => Diverge
  end.

Global Instance outcome_fmap : FMap outcome := λ A B f x,
  match x with
  | Ret a => Ret (f a)
  | Panic => Panic
  | Diverge => Diverge
  end.

(** Left-to-right iteration of a fallible step, as a [for] loop over a
    slice does it. *)
Definition foldM {A S} (f : S → A → outcome S) : list A → S → outcome S :=
  fix go (l : list A) (s : S) : outcome S :=
    match l with
    | [] => Ret s
    | x :: l' => s' ← f s x; go l' s'
    end.

(** Go's [int] is 64 bits wide and wraps around in two's complement. *)
Definition wrap64 (z : Z) : Z := (z + 2 ^ 63) `mod` 2 ^ 64 - 2 ^ 63.

(** ** The parts of the Go standard library that the code calls *)

Module strings.

(** [strings.Split(s, sep)] for a one-byte separator: every separator
    ends a piece, so the empty string splits into one empty piece. *)
Fixpoint Split (s : string) (sep : ascii) : list string :=
  match s with
  | EmptyString => [EmptyString]
  | String c s' =>
      if decide (c = sep) then EmptyString :: Split s' sep
      else match Split s' sep with
           | piece :: pieces => String c piece :: pieces
           | [] => [String c EmptyString]
           end
  end.

Fixpoint Join (pieces : list string) (sep : string) : string :=
  match pieces with
  | [] => EmptyString
  | [p] => p
  | p :: rest => p +:+ sep +:+ Join rest sep
  end.

(** [c += 'a' - 'A'] where ['A' <= c && c <= 'Z']: what [strings.ToLower]
    does to a byte of a string of ASCII bytes. *)
Definition lower_byte (c : ascii) : ascii :=
  let n := N_of_ascii c in
  if ((65 <=? n) && (n <=? 90))%N then ascii_of_N (n + 32) else c.

Fixpoint lowerASCII (s : string) : string :=
  match s with
  | EmptyString => EmptyString
  | String c s' => String (lower_byte c) (lowerASCII s')
  end.

(** The first loop of [strings.ToLower]: no byte of [s] is
    [utf8.RuneSelf] (0x80) or above. *)
Fixpoint isASCII (s : string) : bool :=
  match s with
  | EmptyString => true
  | String c s' => (N_of_ascii c <? 128)%N && isASCII s'
  end.

(** [strings.Map(unicode.ToLower, s)], which [strings.ToLower] returns
    for a string with a byte from 0x80 on: the string is decoded rune by
    rune and each rune is lowered by the case tables of package
    [unicode].  The tables are generated from the Unicode database of the
    toolchain and are not embedded; what they make of a string is a
    parameter of the development. *)
Class CaseTables : Type := { lowerRunes : string → string }.

(** [strings.ToLower]: byte by byte for a string of ASCII bytes, rune by
    rune for any other. *)
Definition ToLower `{CaseTables} (s : string) : string :=
  if isASCII s then lowerASCII s else lowerRunes s.

(** [strings.NewReplacer(oldnew...)] with at least one [old] longer than a
    byte builds the generic replacer: it scans the argument from left to
    right; at every position the first pair in argument order whose [old]
    is a prefix of the rest is applied and the scan resumes behind the
    match; where no pair applies the byte is copied. *)
Definition Replacer := list (string * string).

Fixpoint lookup (r : Replacer) (s : string) : option (string * string) :=
  match r with
  | [] => None
  | (old, new) :: r' =>
      if String.prefix old s then Some (old, new) else lookup r' s
  end.

(** [skip] counts the bytes of a match that are still to be passed over.
    No [old] of the replacers built in this program is empty. *)
Fixpoint Replace_from (r : Replacer) (skip : nat) (s : string) : string :=
  match s with
  | EmptyString => EmptyString
  | String c s' =>
      match skip with
      | S k => Replace_from r k s'
      | O =>
          match lookup r s with
          | Some (old, new) =>
              new +:+ Replace_from r (Nat.pred (String.length old)) s'
          | None => String c (Replace_from r 0 s')
          end
      end
  end.

Definition Replace (r : Replacer) (s : string) : string := Replace_from r 0 s.

End strings.

Module strconv.
(** [strconv.Itoa]: decimal digits, a leading minus sign for negatives. *)
Definition Itoa (n : Z) : string := pretty n.
End strconv.

(** ** go/types, as far as the registry looks at it *)

Module types.

(** [*types.Package]: [Name()] and [Path()]. *)
Record Package : Type := { Name : string; Path : string }.

(** [types.Type].  A named type is a leaf of the walk in
    [populateImports]: it carries the package of its object ([nil] for the
    types of the universe, such as [error]), its name and its type
    arguments.  Of a struct only the field types are read, of an
    interface the types of the explicit methods and the embedded types,
    of a signature the types of parameters and results.  [Other] stands
    for the remaining kinds (type parameters, tuples, unions, aliases). *)
Inductive Type_ : Type :=
| Basic (name : string)
| Named (pkg : option Package) (name : string) (targs : list Type_)
| Pointer (elem : Type_)
| Array (len : Z) (elem : Type_)
| Slice (elem : Type_)
| Map (key elem : Type_)
| Chan (elem : Type_)
| Struct (fields : list Type_)
| Interface (explicitMethods embeddeds : list Type_)
| Signature (params results : list Type_)
| Other (descr : string).

(** [*types.Var]: [Name()] and [Type()]. *)
Record Var : Type := { VarName : string; VarType : Type_ }.

End types.

Global Instance types_Package_eq_dec : EqDecision types.Package.
Proof. solve_decision. Defined.

Section Type_ind_nested.

Variable P : types.Type_ → Prop.
Hypothesis P_Basic : ∀ name, P (types.Basic name).
Hypothesis P_Named : ∀ pkg name targs, P (types.Named pkg name targs).
Hypothesis P_Pointer : ∀ elem, P elem → P (types.Pointer elem).
Hypothesis P_Array : ∀ len elem, P elem → P (types.Array len elem).
Hypothesis P_Slice : ∀ elem, P elem → P (types.Slice elem).
Hypothesis P_Map : ∀ key elem, P key → P elem → P (types.Map key elem).
Hypothesis P_Chan : ∀ elem, P elem → P (types.Chan elem).
Hypothesis P_Struct : ∀ fields, Forall P fields → P (types.Struct fields).
Hypothesis P_Interface : ∀ explicitMethods embeddeds,
  Forall P explicitMethods → Forall P embeddeds →
  P (types.Interface explicitMethods embeddeds).
Hypothesis P_Signature : ∀ params results,
  Forall P params → Forall P results → P (types.Signature params results).
Hypothesis P_Other : ∀ descr, P (types.Other descr).

(** Induction over a type with the hypothesis at hand for every entry of
    the lists inside it. *)
Fixpoint Type_ind_nested (t : types.Type_) : P t :=
  let all := fix all (l : list types.Type_) : Forall P l :=
    match l with
    | [] => List.Forall_nil P
    | t' :: l' => @List.Forall_cons _ P t' l' (Type_ind_nested t') (all l')
    end in
  match t with
  | types.Basic name => P_Basic name
  | types.Named pkg name targs => P_Named pkg name targs
  | types.Pointer elem => P_Pointer elem (Type_ind_nested elem)
  | types.Array len elem => P_Array len elem (Type_ind_nested elem)
  | types.Slice elem => P_Slice elem (Type_ind_nested elem)
  | types.Map key elem => P_Map key elem (Type_ind_nested key) (Type_ind_nested elem)
  | types.Chan elem => P_Chan elem (Type_ind_nested elem)
  | types.Struct fields => P_Struct fields (all fields)
  | types.Interface ms es => P_Interface ms es (all ms) (all es)
  | types.Signature ps rs => P_Signature ps rs (all ps) (all rs)
  | types.Other descr => P_Other descr
  end.

End Type_ind_nested.

(** ** internal/registry/package.go *)

Module registry.

Definition replacer : strings.Replacer :=
  [("go-", ""); ("-go", ""); ("-", ""); ("_", "");
   (".", ""); ("@", ""); ("+", ""); ("~", "")]%string.

(** [Package] represents an imported package.  [pkg] is a pointer in the
    source and may be nil. *)
Record Package : Type := { pkg : option types.Package; Alias : string }.

(** Modelled from the spec: [stripVendorPath] is called by [Path] and by
    [populateImports]; its definition lies in another file of the package
    (registry.go), which is not embedded here.  The spec has
    everything up to and including a [vendor/] path segment discarded. *)
Fixpoint afterVendor (segments : list string) : option (list string) :=
  match segments with
  | [] => None
  | s :: rest =>
      if decide (s = "vendor"%string)
      then match rest with [] => None | _ => Some rest end
      else afterVendor rest
  end.

(** Modelled from the spec: [stripVendorPath], as described above. *)
Definition stripVendorPath (p : string) : string :=
  match afterVendor (strings.Split p "/") with
  | Some rest => strings.Join rest "/"
  | None => p
  end.

(** [Qualifier] has a pointer receiver: [None] is the nil [*Package].
    [p.pkg.Name()] on a nil [pkg] dereferences nil. *)
Definition Qualifier (p : option Package) : outcome string :=
  match p with
  | None => Ret ""%string
  | Some p =>
      if decide (Alias p ≠ ""%string) then Ret (Alias p)
      else match pkg p with
           | Some tp => Ret (types.Name tp)
           | None => Panic
           end
  end.

(** [Path] is the full package import path (without vendor). *)
Definition Path (p : option Package) : outcome string :=
  match p with
  | None => Ret ""%string
  | Some p =>
      match pkg p with
      | Some tp => Ret (stripVendorPath (types.Path tp))
      | None => Panic
      end
  end.

Definition min (a b : Z) : Z := if decide (a < b) then a else b.

(** [a[i], a[opp] = a[opp], a[i]]; both indices are in range wherever
    [reverse] swaps. *)
Definition swap (a : list string) (i opp : nat) : list string :=
  match a !! i, a !! opp with
  | Some x, Some y => <[opp := x]> (<[i := y]> a)
  | _, _ => a
  end.

(** The loop of [reverse] with [i] running from [k - 1] down to [0]. *)
Fixpoint reverse_from (k : nat) (a : list string) : list string :=
  match k with
  | O => a
  | S i => reverse_from i (swap a i (length a - 1 - i)%nat)
  end.

Definition reverse (a : list string) : list string :=
  reverse_from (length a / 2)%nat a.

Section WithCaseTables.

(** The case tables behind [strings.ToLower]. *)
Context `{tables : !strings.CaseTables}.

(** The loop of [uniqueName]: [i] runs over the first [n] entries of
    [pp] and each sanitised component is put in front of [name]. *)
Definition uniqueName_loop (pp : list string) (n : nat) : string :=
  fold_left
    (fun name component =>
       strings.ToLower (strings.Replace replacer component) +:+ name)
    (take n pp) ""%string.

(** [uniqueName] has a value receiver, so there is always a [Package]. *)
Definition uniqueName (p : Package) (lvl : Z) : outcome string :=
  path ← Path (Some p);
  let pp := reverse (strings.Split path "/") in
  Ret (uniqueName_loop pp (Z.to_nat (min (Z.of_nat (length pp)) (wrap64 (lvl + 1))))).

(** *** The registry of imports *)

(** Modelled from the spec: the [Registry] type, which the method scope
    uses, lies in registry.go, a file that is not embedded here.  The
    spec describes a table from import paths to allocated packages.  The
    table is kept in the order of registration. *)
Record Registry : Type := { packages : list (string * Package) }.

(** Modelled from the spec: the package registered for a path, if any
    (the lookup at the head of [AddImport], missing with it). *)
Definition lookupPath (r : Registry) (path : string) : option Package :=
  (fun found => found.2.2) <$> list_find (fun e => e.1 = path) (packages r).

(** Modelled from the spec: [searchImport], missing with the registry,
    finds a registered package whose qualifier is [name]. *)
Fixpoint searchImport_in (l : list (string * Package)) (name : string)
  : outcome (option Package) :=
  match l with
  | [] => Ret None
  | (_, p) :: l' =>
      q ← Qualifier (Some p);
      if decide (q = name) then Ret (Some p) else searchImport_in l' name
  end.

(** Modelled from the spec: [searchImport] on the table of the registry. *)
Definition searchImport (r : Registry) (name : string) : outcome (option Package) :=
  searchImport_in (packages r) name.

(** Modelled from the spec: the depth escalation of the missing
    [AddImport].  Starting from the last segment, the candidate grows by
    one more distant segment at a time until it no longer collides with a
    qualifier already allocated.  From the level of the whole path on the
    name no longer changes, so a search that has not ended by then never
    ends: the fuel handed in by [AddImport] is the number of path segments
    (see [escalate_fuel_exact]). *)
Fixpoint escalate (fuel : nat) (r : Registry) (p : Package) (lvl : Z)
  : outcome Package :=
  match fuel with
  | O => Diverge
  | S fuel' =>
      name ← uniqueName p lvl;
      taken ← searchImport r name;
      match taken with
      | Some _ => escalate fuel' r p (lvl + 1)
      | None => Ret {| pkg := pkg p; Alias := name |}
      end
  end.

(** The name of [p] at the level [lvl] is the qualifier of a registered
    package. *)
Definition collides (r : Registry) (p : Package) (lvl : Z) : Prop :=
  ∃ name q, uniqueName p lvl = Ret name ∧ searchImport r name = Ret (Some q).

(** Modelled from the spec: [AddImport], missing with the registry,
    returns the package already registered for the path, and otherwise
    allocates one, escalating when the declared name collides with the
    qualifier of a registered package. *)
Definition AddImport (r : Registry) (tp : types.Package)
  : outcome (Registry * option Package) :=
  let path := stripVendorPath (types.Path tp) in
  match lookupPath r path with
  | Some p => Ret (r, Some p)
  | None =>
      let imprt := {| pkg := Some tp; Alias := "" |} in
      q ← Qualifier (Some imprt);
      conflict ← searchImport r q;
      imprt ← match conflict with
              | Some _ => escalate (length (strings.Split path "/")) r imprt 0
              | None => Ret imprt
              end;
      Ret ({| packages := packages r ++ [(path, imprt)] |}, Some imprt)
  end.

(** ** internal/registry/method_scope.go *)

(** [Var]: the Go struct has the fields [vr], [imports], [miripPkgPath]
    and [Name]; [pkgPath] is its [miripPkgPath].  The scope holds
    pointers to its variables and [AddVar] hands one out: here a variable
    is addressed by its index in [vars], and a rename through the pointer
    is an update at that index. *)
Record Var : Type := {
  vr : types.Var;
  imports : gmap string (option Package);
  pkgPath : string;
  Name : string
}.

Definition appendName (suffix : string) (v : Var) : Var :=
  {| vr := vr v; imports := imports v; pkgPath := pkgPath v;
     Name := Name v +:+ suffix |}.

(** [MethodScope] is the sub-registry for allocating variables present in
    the method scope.  [registry] is a pointer shared with the other
    scopes; the record carries the registry as it is at the moment. *)
Record MethodScope : Type := {
  registry : Registry;
  miripPkgPath : string;
  vars : list Var;
  conflicted : gmap string bool
}.

Definition searchVar_in (vs : list Var) (name : string) : option nat :=
  fst <$> list_find (fun v => Name v = name) vs.

Definition searchVar (m : MethodScope) (name : string) : option nat :=
  searchVar_in (vars m) name.

(** The keywords, the two identifiers of the generated code and the basic
    types that [varName] steps aside from. *)
Definition reservedNames : list string :=
  ["mock"; "callInfo"; "break"; "default"; "func"; "interface"; "select";
   "case"; "defer"; "go"; "map"; "struct"; "chan"; "else"; "goto";
   "package"; "switch"; "const"; "fallthrough"; "if"; "range"; "type";
   "continue"; "for"; "import"; "return"; "var";
   "string"; "bool"; "byte"; "rune"; "uintptr";
   "int"; "int8"; "int16"; "int32"; "int64";
   "uint"; "uint8"; "uint16"; "uint32"; "uint64";
   "float32"; "float64"; "complex64"; "complex128"]%string.

(** [populateImports] extracts all the package imports for a given type
    recursively.  The state is the registry behind [m.registry] and the
    map [imports]. *)
Fixpoint populateImports (t : types.Type_)
    (st : Registry * gmap string (option Package))
  : outcome (Registry * gmap string (option Package)) :=
  match t with
  | types.Named (Some tp) _ _ =>
      '(r, p) ← AddImport st.1 tp;
      Ret (r, <[stripVendorPath (types.Path tp) := p]> st.2)
  | types.Named None _ _ => Ret st
  | types.Array _ elem => populateImports elem st
  | types.Slice elem => populateImports elem st
  | types.Signature params results =>
      st ← foldM (fun st t' => populateImports t' st) params st;
      foldM (fun st t' => populateImports t' st) results st
  | types.Map key elem =>
      st ← populateImports key st;
      populateImports elem st
  | types.Chan elem => populateImports elem st
  | types.Pointer elem => populateImports elem st
  | types.Struct fields =>
      foldM (fun st t' => populateImports t' st) fields st
  | types.Interface explicitMethods embeddeds =>
      st ← foldM (fun st t' => populateImports t' st) explicitMethods st;
      foldM (fun st t' => populateImports t' st) embeddeds st
  | types.Basic _ | types.Other _ => Ret st
  end.

(** One round of the loop in [resolveImportVarConflicts]. *)
Definition resolveImportVarConflict (vs : list Var) (imprt : option Package)
  : outcome (list Var) :=
  q ← Qualifier imprt;
  match searchVar_in vs q with
  | Some i => Ret (alter (appendName "MirippParam") i vs)
  | None => Ret vs
  end.

(** [resolveImportVarConflicts] ranges over the map [imports].  Go leaves
    the order of a range over a map open; [order] is the order in which
    this run of the loop meets the entries. *)
Definition resolveImportVarConflicts (m : MethodScope)
    (order : list (string * option Package)) : outcome MethodScope :=
  vs ← foldM resolveImportVarConflict (snd <$> order) (vars m);
  Ret {| registry := registry m; miripPkgPath := miripPkgPath m;
         vars := vs; conflicted := conflicted m |}.

(** The loop of [resolveVarNameConflict] from [n] on.  [conflict] is nil
    when no variable bears the suggested name, and [conflict.Name]
    dereferences it. *)
Fixpoint resolveVarNameConflict_from (fuel : nat) (m : MethodScope)
    (suggested : string) (n : Z) : outcome (string * MethodScope) :=
  match fuel with
  | O => Diverge
  | S fuel' =>
      match searchVar m (suggested +:+ strconv.Itoa n) with
      | Some _ => resolveVarNameConflict_from fuel' m suggested (wrap64 (n + 1))
      | None =>
          if decide (n = 1) then
            match searchVar m suggested with
            | Some conflict =>
                Ret (suggested +:+ strconv.Itoa (wrap64 (n + 1)),
                     {| registry := registry m; miripPkgPath := miripPkgPath m;
                        vars := alter (appendName "1") conflict (vars m);
                        conflicted := <[suggested := true]> (conflicted m) |})
            | None => Panic
            end
          else Ret (suggested +:+ strconv.Itoa n, m)
      end
  end.

(** What the loop comes to when [n] is the first number it finds free. *)
Definition resolvedAt (m : MethodScope) (suggested : string) (n : Z)
  : outcome (string * MethodScope) :=
  if decide (n = 1) then
    match searchVar m suggested with
    | Some conflict =>
        Ret (suggested +:+ "2",
             {| registry := registry m; miripPkgPath := miripPkgPath m;
                vars := alter (appendName "1") conflict (vars m);
                conflicted := <[suggested := true]> (conflicted m) |})
    | None => Panic
    end
  else Ret (suggested +:+ strconv.Itoa n, m).

(** The loop has no bound in the source.  Of the names tried in the first
    [len(m.vars) + 1] rounds one is free, so this much fuel is never used
    up (see [resolveVarNameConflict_returns]). *)
Definition resolveVarNameConflict (m : MethodScope) (suggested : string)
  : outcome (string * MethodScope) :=
  resolveVarNameConflict_from (S (length (vars m))) m suggested 1.

(** No package of the map has as its qualifier the qualifier of another
    one with [MirippParam] behind. *)
Definition unrelatedQualifiers (imports : gmap string (option Package)) : Prop :=
  ∀ k1 k2 p1 p2 q1 q2,
    imports !! k1 = Some p1 → imports !! k2 = Some p2 →
    Qualifier p1 = Ret q1 → Qualifier p2 = Ret q2 →
    q2 ≠ q1 +:+ "MirippParam".

Section WithTypeNames.

(** [varNameForType] lies in var.go, which is not embedded here: the
    name it makes up for a type is a parameter. *)
Variable varNameForType : types.Type_ → string.

Definition varName (vr : types.Var) (suffix : string) : string :=
  let name := types.VarName vr in
  if decide (name ≠ ""%string ∧ name ≠ "_"%string) then name +:+ suffix
  else
    let name := varNameForType (types.VarType vr) +:+ suffix in
    if decide (name ∈ reservedNames) then name +:+ "MiripParam" else name.

(** Lines 103-111 of [AddVar]: the imports of the type are registered,
    earlier variables give way to their qualifiers, and the name asked
    for is computed and kept apart from the qualifiers of the
    registry.  [enum] is the order in which the range over [imports]
    runs. *)
Definition prepare
    (enum : gmap string (option Package) → list (string * option Package))
    (m : MethodScope) (vr : types.Var) (suffix : string)
  : outcome (gmap string (option Package) * MethodScope * string) :=
  '(r, imports) ← populateImports (types.VarType vr) (registry m, ∅);
  let m := {| registry := r; miripPkgPath := miripPkgPath m;
              vars := vars m; conflicted := conflicted m |} in
  m ← resolveImportVarConflicts m (enum imports);
  let name := varName vr suffix in
  found ← searchImport (registry m) name;
  let name := match found with
              | Some _ => name +:+ "MiripParam"
              | None => name
              end in
  Ret (imports, m, name).

(** Lines 112-123 of [AddVar]: the name is made free of the names in the
    scope and the variable is appended. *)
Definition place (m : MethodScope) (vr : types.Var)
    (imports : gmap string (option Package)) (name : string)
  : outcome (nat * MethodScope) :=
  '(name, m) ←
    (if decide (is_Some (searchVar m name)
                ∨ default false (conflicted m !! name) = true)
     then resolveVarNameConflict m name
     else Ret (name, m));
  let v := {| vr := vr; imports := imports; pkgPath := miripPkgPath m;
              Name := name |} in
  Ret (length (vars m),
       {| registry := registry m; miripPkgPath := miripPkgPath m;
          vars := vars m ++ [v]; conflicted := conflicted m |}).

(** [AddVar] allocates a variable instance and adds it to the method
    scope.  The result is the index of the new variable, in place of
    the pointer to it, and the scope after the call. *)
Definition AddVar
    (enum : gmap string (option Package) → list (string * option Package))
    (m : MethodScope) (vr : types.Var) (suffix : string)
  : outcome (nat * MethodScope) :=
  '(imports, m, name) ← prepare enum m vr suffix;
  place m vr imports name.

(** A sequence of [AddVar] calls on one scope, in order. *)
Definition AddVars
    (enum : gmap string (option Package) → list (string * option Package))
    (m : MethodScope) (calls : list (types.Var * string)) : outcome MethodScope :=
  foldM (fun m call => '(_, m) ← AddVar enum m call.1 call.2; Ret m) calls m.

(** A call that comes to the name [c] and leaves the scope as it is
    before the name is placed, in every scope on the registry of [m]. *)
Definition arrivesAt
    (enum : gmap string (option Package) → list (string * option Package))
    (m : MethodScope) (c : string) (call : types.Var * string) : Prop :=
  ∀ m', registry m' = registry m →
        ∃ imports, prepare enum m' call.1 call.2 = Ret (imports, m', c).

(** In every call of the sequence, run from [m] with the order [enum],
    the packages of the variable's type have unrelated qualifiers. *)
Fixpoint unrelatedThroughout
    (enum : gmap string (option Package) → list (string * option Package))
    (m : MethodScope) (calls : list (types.Var * string)) : Prop :=
  match calls with
  | [] => True
  | call :: calls =>
      (∀ r imports,
         populateImports (types.VarType call.1) (registry m, ∅) = Ret (r, imports) →
         unrelatedQualifiers imports)
      ∧ (∀ i m', AddVar enum m call.1 call.2 = Ret (i, m') →
                 unrelatedThroughout enum m' calls)
  end.

End WithTypeNames.

(** A fresh scope on a registry. *)
Definition newMethodScope (r : Registry) (path : string) : MethodScope :=
  {| registry := r; miripPkgPath := path; vars := []; conflicted := ∅ |}.

Definition names (m : MethodScope) : list string := Name <$> vars m.

(** The names that [k] variables asking for the same free name [c] are
    to end up with: the name itself while there is one of them, and the
    name with the numbers from 1 to [k] from the second on. *)
Definition numbered (c : string) (k : nat) : list string :=
  (fun i : nat => c +:+ strconv.Itoa (Z.of_nat i)) <$> seq 1 k.

Definition sameNameNames (c : string) (k : nat) : list string :=
  match k with
  | 1%nat => [c]
  | _ => numbered c k
  end.

(** The scope with one more variable at the end. *)
Definition appendVar (m : MethodScope) (v : Var) : MethodScope :=
  {| registry := registry m; miripPkgPath := miripPkgPath m;
     vars := vars m ++ [v]; conflicted := conflicted m |}.

(** The scope [m'] is what [m] has become after [j] variables that asked
    for the name [c]. *)
Definition afterSame (m : MethodScope) (c : string) (j : nat) (m' : MethodScope) : Prop :=
  registry m' = registry m
  ∧ names m' = names m ++ sameNameNames c j
  ∧ conflicted m' = if decide (2 ≤ j)%nat then <[c := true]> (conflicted m)
                    else conflicted m.

(** The packages that own a named type met on the way through a type:
    through pointers, arrays, slices, maps (key and element), channels,
    the fields of a struct, the explicit methods and the embedded types
    of an interface, and the parameters and results of a signature. *)
Inductive owns : types.Type_ → types.Package → Prop :=
| owns_Named tp name targs : owns (types.Named (Some tp) name targs) tp
| owns_Pointer elem tp : owns elem tp → owns (types.Pointer elem) tp
| owns_Array len elem tp : owns elem tp → owns (types.Array len elem) tp
| owns_Slice elem tp : owns elem tp → owns (types.Slice elem) tp
| owns_Map_key key elem tp : owns key tp → owns (types.Map key elem) tp
| owns_Map_elem key elem tp : owns elem tp → owns (types.Map key elem) tp
| owns_Chan elem tp : owns elem tp → owns (types.Chan elem) tp
| owns_Struct fields t tp :
    t ∈ fields → owns t tp → owns (types.Struct fields) tp
| owns_Interface_method explicitMethods embeddeds t tp :
    t ∈ explicitMethods → owns t tp →
    owns (types.Interface explicitMethods embeddeds) tp
| owns_Interface_embedded explicitMethods embeddeds t tp :
    t ∈ embeddeds → owns t tp →
    owns (types.Interface explicitMethods embeddeds) tp
| owns_Signature_param params results t tp :
    t ∈ params → owns t tp → owns (types.Signature params results) tp
| owns_Signature_result params results t tp :
    t ∈ results → owns t tp → owns (types.Signature params results) tp.

(** The path is registered, and the map holds the registered package
    under it. *)
Definition recordedAt (st : Registry * gmap string (option Package))
    (path : string) : Prop :=
  ∃ p, lookupPath st.1 path = Some p ∧ st.2 !! path = Some (Some p).

(** The orders in which a range over a map may run: every entry once. *)
Definition range_order
    (enum : gmap string (option Package) → list (string * option Package)) : Prop :=
  ∀ imports, enum imports ≡ₚ map_to_list imports.

(** The qualifiers of the packages registered at the moment. *)
Definition qualifiers (r : Registry) : list (outcome string) :=
  (fun e => Qualifier (Some e.2)) <$> packages r.

End WithCaseTables.

End registry.

(** ** main.go *)

Module main.

Record userFlags : Type := {
  outFile : string;
  pkgName : string;
  formatter : string;
  stubImpl : bool;
  skipEnsure : bool;
  remove : bool;
  args : list string
}.

(** An [error] value: its text, and whether [errors.Is(err, os.ErrNotExist)]
    holds of it. *)
Record error : Type := { notExist : bool; text : string }.

(** [mirip.Config]. *)
Record Config : Type := {
  SrcDir : string;
  PkgName : string;
  Formatter : string;
  StubImpl : bool;
  SkipEnsure : bool
}.

(** What the command does to its surroundings, in order. *)
Inductive event : Type :=
| Removed (name : string)
| MadeDir (dir : string)
| Wrote (name : string) (data : string)
| Printed (data : string).

(** The surroundings of the command: the regular files with their
    content, the directories, the names on which the system refuses
    removal, creation and writing, what has gone to the standard output,
    and the record of the events so far. *)
Record World : Type := {
  files : gmap string string;
  dirs : gset string;
  denied : gset string;
  stdout : string;
  log : list event
}.

(** [os.Remove] on a name that is a regular file or nothing. *)
Definition os_Remove (name : string) (w : World) : option error * World :=
  if decide (name ∈ denied w)
  then (Some {| notExist := false; text := "permission denied" |}, w)
  else match files w !! name with
       | Some _ =>
           (None, {| files := delete name (files w); dirs := dirs w;
                     denied := denied w; stdout := stdout w;
                     log := log w ++ [Removed name] |})
       | None =>
           (Some {| notExist := true; text := "no such file or directory" |}, w)
       end.

Definition os_MkdirAll (dir : string) (w : World) : option error * World :=
  if decide (dir ∈ denied w)
  then (Some {| notExist := false; text := "permission denied" |}, w)
  else (None, {| files := files w; dirs := {[dir]} ∪ dirs w;
                 denied := denied w; stdout := stdout w;
                 log := log w ++ [MadeDir dir] |}).

Definition os_WriteFile (name data : string) (w : World) : option error * World :=
  if decide (name ∈ denied w)
  then (Some {| notExist := false; text := "permission denied" |}, w)
  else (None, {| files := <[name := data]> (files w); dirs := dirs w;
                 denied := denied w; stdout := stdout w;
                 log := log w ++ [Wrote name data] |}).

Definition print (data : string) (w : World) : World :=
  {| files := files w; dirs := dirs w; denied := denied w;
     stdout := stdout w +:+ data;
     log := log w ++ [Printed data] |}.

Section WithGenerator.

(** The package [internal/mirip] is not embedded here, and neither is
    [filepath.Dir]: they are parameters.  [mirip_New] gives a mocker or
    an error; [mirip_Mock]
    gives what the mocker writes to its writer before it returns, and
    the error it returns, if any.  Both may read the surroundings; they
    reach the output only through the writer handed to [Mock]. *)
Variable Mocker : Type.
Variable mirip_New : World → Config → Mocker + error.
Variable mirip_Mock : World → Mocker → list string → string * option error.
Variable filepath_Dir : string → string.

(** Lines 62-68 of [run]: the removal of the output file. *)
Definition removeOutput (flags : userFlags) (w : World) : option error * World :=
  if decide (remove flags = true ∧ outFile flags ≠ ""%string) then
    match os_Remove (outFile flags) w with
    | (Some err, w) =>
        if negb (notExist err) then (Some err, w) else (None, w)
    | (None, w) => (None, w)
    end
  else (None, w).

Definition config (flags : userFlags) : Config :=
  {| SrcDir := default ""%string (args flags !! 0%nat);
     PkgName := pkgName flags;
     Formatter := formatter flags;
     StubImpl := stubImpl flags;
     SkipEnsure := skipEnsure flags |}.

(** [run].  [out] is the buffer when an output file is given and the
    standard output otherwise: only in the second case does what the
    generator writes leave the program at once. *)
Definition run (flags : userFlags) (w : World) : option error * World :=
  if decide (length (args flags) < 2)%nat
  then (Some {| notExist := false; text := "not enough arguments" |}, w)
  else
    match removeOutput flags w with
    | (Some err, w) => (Some err, w)
    | (None, w) =>
        match mirip_New w (config flags) with
        | inr err => (Some err, w)
        | inl m =>
            let '(buf, err) := mirip_Mock w m (drop 1 (args flags)) in
            let w := if decide (outFile flags ≠ ""%string) then w
                     else print buf w in
            match err with
            | Some err => (Some err, w)
            | None =>
                if decide (outFile flags = ""%string) then (None, w)
                else
                  match os_MkdirAll (filepath_Dir (outFile flags)) w with
                  | (Some err, w) => (Some err, w)
                  | (None, w) => os_WriteFile (outFile flags) buf w
                  end
            end
        end
    end.

(** Generation, for the statements below: the error of [mirip.New] or
    of [Mock], and what [Mock] has written when it returns none. *)
Definition generation (flags : userFlags) (w : World) : error + string :=
  match mirip_New w (config flags) with
  | inr err => inl err
  | inl m =>
      match mirip_Mock w m (drop 1 (args flags)) with
      | (_, Some err) => inl err
      | (buf, None) => inr buf
      end
  end.

End WithGenerator.

(** The flags without the request to remove the output file first. *)
Definition withoutRemove (flags : userFlags) : userFlags :=
  {| outFile := outFile flags; pkgName := pkgName flags;
     formatter := formatter flags; stubImpl := stubImpl flags;
     skipEnsure := skipEnsure flags; remove := false; args := args flags |}.

End main.

(** * Inputs and notions for the statements *)

Import registry.
Import main.

(** The case tables of the instances below.  Their inputs are made of
    ASCII bytes, for which [strings.ToLower] does not come to the tables:
    any tables do, and these lower byte by byte. *)
Definition bytewise : strings.CaseTables :=
  {| strings.lowerRunes := strings.lowerASCII |}.

Section AnyCaseTables.

(** What follows holds whatever the case tables of the toolchain are. *)
Context `{tables : !strings.CaseTables}.

(** Two packages called [bar] whose import paths differ in a [go-]. *)
Definition goBar : Package :=
  {| pkg := Some {| types.Name := "bar"; types.Path := "github.com/foo/go-bar" |};
     Alias := "" |}.
Definition bar : Package :=
  {| pkg := Some {| types.Name := "bar"; types.Path := "github.com/foo/bar" |};
     Alias := "" |}.

Definition barAt (path : string) : types.Package :=
  {| types.Name := "bar"; types.Path := path |}.

(** [BÄR] in UTF-8, and a package at [example.com/BÄR]. *)
Definition baer : string :=
  String "B" (String (ascii_of_N 195) (String (ascii_of_N 132) "R")).
Definition atBaer : Package :=
  {| pkg := Some (barAt ("example.com/" +:+ baer)); Alias := "" |}.

(** A registry without packages. *)
Definition emptyRegistry : Registry := {| packages := [] |}.

(** A variable [name int], and a variable [name string]. *)
Definition intVar (name : string) : types.Var :=
  {| types.VarName := name; types.VarType := types.Basic "int" |}.

Definition stringVar (name : string) : types.Var :=
  {| types.VarName := name; types.VarType := types.Basic "string" |}.

(** A package whose declared name is [v1]. *)
Definition coreV1 : types.Package :=
  {| types.Name := "v1"; types.Path := "k8s.io/api/core/v1" |}.

(** A scope whose variables bear the names [ns], none of them marked as
    conflicted. *)
Definition scopeOf (r : Registry) (ns : list string) : MethodScope :=
  {| registry := r; miripPkgPath := "";
     vars := (fun n => {| vr := intVar n; imports := ∅; pkgPath := ""; Name := n |}) <$> ns;
     conflicted := ∅ |}.

(** What the walk over [t] achieves: what was recorded stays recorded,
    and every package that owns a named type of [t] is recorded. *)
Definition walked (t : types.Type_) : Prop :=
  ∀ st st', populateImports t st = Ret st' →
            (∀ path, recordedAt st path → recordedAt st' path)
            ∧ (∀ tp, owns t tp → recordedAt st' (stripVendorPath (types.Path tp))).

(** Three packages, the third one vendored. *)
Definition contextPkg : types.Package :=
  {| types.Name := "context"; types.Path := "context" |}.
Definition httpPkg : types.Package :=
  {| types.Name := "http"; types.Path := "net/http" |}.
Definition ioPkg : types.Package :=
  {| types.Name := "io"; types.Path := "example.com/app/vendor/example.com/lib/io" |}.

(** [map[context.Context]*struct{ R []http.Request; F func(io.Reader) error }] *)
Definition handlersType : types.Type_ :=
  types.Map (types.Named (Some contextPkg) "Context" [])
    (types.Pointer
       (types.Struct
          [types.Slice (types.Named (Some httpPkg) "Request" []);
           types.Signature [types.Named (Some ioPkg) "Reader" []]
                           [types.Named None "error" []]])).

Definition handlersVar : types.Var :=
  {| types.VarName := "handlers"; types.VarType := handlersType |}.

(** The scope after [handlers] has been added to a fresh one. *)
Definition handlersScope : MethodScope :=
  match AddVar (fun _ => "x") map_to_list (newMethodScope emptyRegistry "") handlersVar "" with
  | Ret (_, m) => m
  | _ => newMethodScope emptyRegistry ""
  end.

(** A package called [a] and one called [aMirippParam]. *)
Definition pkgA : types.Package := {| types.Name := "a"; types.Path := "example.com/a" |}.
Definition pkgAParam : types.Package :=
  {| types.Name := "aMirippParam"; types.Path := "example.com/b" |}.

(** [a int] and then [m map[a.K]aMirippParam.V]. *)
Definition orderCalls : list (types.Var * string) :=
  [(intVar "a", "");
   ({| types.VarName := "m";
       types.VarType := types.Map (types.Named (Some pkgA) "K" [])
                                  (types.Named (Some pkgAParam) "V" []) |}, "")].

(** The range over the imports run in the opposite order. *)
Definition backwards (imports : gmap string (option Package))
  : list (string * option Package) := rev (map_to_list imports).

(** The registry and the imports after the walk over [handlersType]. *)
Definition handlersWalk : Registry * gmap string (option Package) :=
  match populateImports handlersType (emptyRegistry, ∅) with
  | Ret st => st
  | _ => (emptyRegistry, ∅)
  end.

(** [mirip -rm -out mock.go . Service], next to a stale [mock.go]. *)
Definition mockFlags : userFlags :=
  {| outFile := "mock.go"; pkgName := ""; formatter := ""; stubImpl := false;
     skipEnsure := false; remove := true; args := ["."; "Service"] |}.

Definition staleWorld : World :=
  {| files := {["mock.go" := "package stale"]}; dirs := ∅; denied := ∅;
     stdout := ""; log := [] |}.

Definition clearedWorld : World :=
  {| files := delete "mock.go" (files staleWorld); dirs := ∅; denied := ∅;
     stdout := ""; log := [Removed "mock.go"] |}.

Definition noInterface : error :=
  {| notExist := false; text := "cannot find interface Service" |}.

(** A generator that gives up after it has written a first line. *)
Definition newMocker : World → Config → unit + error := fun _ _ => inl tt.
Definition failingMock : World → unit → list string → string * option error :=
  fun _ _ _ => ("package mock", Some noInterface).
Definition workingMock : World → unit → list string → string * option error :=
  fun _ _ _ => ("package mock; type ServiceMock struct{}", None).
Definition dirOf : string → string := fun _ => ".".

(** What the loop of [uniqueName] makes of one path component:
    [strings.ToLower(replacer.Replace(component))]. *)
Definition sanitised (component : string) : string :=
  strings.ToLower (strings.Replace replacer component).

(** The strings of a list put one behind the other. *)
Definition joined (l : list string) : string := foldr String.append "" l.

(** The bytes of a string. *)
Definition bytes (s : string) : list ascii := list_ascii_of_string s.

(** The bytes that [replacer] takes out, and the ASCII capitals. *)
Definition strippedBytes : list ascii := ["-"; "_"; "."; "@"; "+"; "~"]%char.

Definition capital (c : ascii) : Prop := (65 ≤ N_of_ascii c ≤ 90)%N.

(** The variable [v'] is the variable [v] with, at most, something
    appended to its name. *)
Definition extended (v v' : Var) : Prop :=
  vr v' = vr v ∧ imports v' = imports v ∧ pkgPath v' = pkgPath v
  ∧ ∃ suffix, Name v' = Name v +:+ suffix.

(** A scope in which [v] is marked as conflicted while the variables bear
    [v11], [v2] and [v12]: what the calls for [v], [v] and [v1] leave. *)
Definition orphanScope : MethodScope :=
  {| registry := emptyRegistry; miripPkgPath := "";
     vars := vars (scopeOf emptyRegistry ["v11"; "v2"; "v12"]);
     conflicted := {["v" := true; "v1" := true]} |}.

(** The scope with [v] and [v2] after a second [v] has been added, and the
    scope with [v] and [v1] after a second [v] has been added. *)
Definition collidedScope : MethodScope :=
  match AddVar (fun _ => "x") map_to_list (scopeOf emptyRegistry ["v"; "v2"]) (intVar "v") "" with
  | Ret (_, m) => m
  | _ => newMethodScope emptyRegistry ""
  end.

Definition numberedScope : MethodScope :=
  match AddVar (fun _ => "x") map_to_list (scopeOf emptyRegistry ["v"; "v1"]) (intVar "v") "" with
  | Ret (_, m) => m
  | _ => newMethodScope emptyRegistry ""
  end.

(** The scope with [context] and [http] after the imports of
    [handlersType] have been ranged over. *)
Definition clearedScope : MethodScope :=
  match resolveImportVarConflicts (scopeOf emptyRegistry ["context"; "http"])
          (map_to_list handlersWalk.2) with
  | Ret m => m
  | _ => newMethodScope emptyRegistry ""
  end.

(** [func(int, error) []byte], with [error] given a type argument from a
    package. *)
Definition plainType : types.Type_ :=
  types.Signature
    [types.Basic "int";
     types.Named None "error" [types.Named (Some contextPkg) "Context" []]]
    [types.Slice (types.Basic "byte")].

(** [g p1.G[q.T]]: a named type of the package [p1] with a type argument
    from the package [q]. *)
Definition pkgP1 : types.Package := {| types.Name := "p1"; types.Path := "example.com/p1" |}.
Definition pkgQ : types.Package := {| types.Name := "q"; types.Path := "example.com/q" |}.
Definition genericVar : types.Var :=
  {| types.VarName := "g";
     types.VarType := types.Named (Some pkgP1) "G" [types.Named (Some pkgQ) "T" []] |}.

(** [mirip -rm . Service]: no output file. *)
Definition stdoutFlags : userFlags :=
  {| outFile := ""; pkgName := ""; formatter := ""; stubImpl := false;
     skipEnsure := false; remove := true; args := ["."; "Service"] |}.

(** * Properties *)

(** ** Package *)

Lemma wrap64_small (z : Z) : - 2 ^ 63 ≤ z < 2 ^ 63 → wrap64 z = z.
Proof. intros H. unfold wrap64. rewrite Z.mod_small; lia. Qed.

Lemma length_swap (a : list string) (i opp : nat) : length (swap a i opp) = length a.
Proof.
  unfold swap. destruct (a !! i), (a !! opp); try done.
  by rewrite !length_insert.
Qed.

Lemma swap_lookup (a : list string) (i opp j : nat) :
  (i < length a)%nat → (opp < length a)%nat →
  swap a i opp !! j
  = if decide (j = opp) then a !! i else if decide (j = i) then a !! opp else a !! j.
Proof.
  intros Hi Hopp. unfold swap.
  destruct (lookup_lt_is_Some_2 a i Hi) as [x Hx].
  destruct (lookup_lt_is_Some_2 a opp Hopp) as [y Hy].
  rewrite Hx, Hy, !list_lookup_insert, length_insert.
  repeat case_decide; destruct_and?; subst; try done; try lia;
    exfalso; intuition lia.
Qed.

(** The loop of [reverse] from [k] on has exchanged the first [k] entries
    with the last [k]. *)
Lemma reverse_from_lookup (k : nat) :
  ∀ (a : list string) (j : nat),
    (2 * k ≤ length a)%nat →
    reverse_from k a !! j
    = if decide (j < k ∨ length a - k ≤ j < length a)%nat
      then a !! (length a - 1 - j)%nat else a !! j.
Proof.
  induction k as [|k IH]; intros a j Hk; cbn [reverse_from].
  { rewrite decide_False by lia. done. }
  rewrite IH by (rewrite length_swap; lia).
  rewrite length_swap, !swap_lookup by lia.
  repeat case_decide; try lia; try done; f_equal; lia.
Qed.

(** [reverse] reverses. *)
Lemma reverse_rev (a : list string) : reverse a = rev a.
Proof.
  apply list_eq. intros j. unfold reverse.
  assert (2 * (length a / 2) ≤ length a)%nat as Hhalf.
  { apply Nat.Div0.mul_div_le. }
  rewrite reverse_from_lookup by done.
  rewrite rev_alt. fold (list.reverse a).
  destruct (decide (j < length a)%nat) as [Hj|Hj].
  - rewrite reverse_lookup by done.
    assert (length a - 1 - j = length a - S j)%nat as -> by lia.
    case_decide as Hcase; [done|].
    f_equal.
    assert (length a < 2 * (length a / 2) + 2)%nat.
    { pose proof (Nat.div_mod_eq (length a) 2).
      pose proof (Nat.mod_upper_bound (length a) 2). lia. }
    lia.
  - rewrite (lookup_ge_None_2 (list.reverse a)) by (rewrite length_reverse; lia).
    rewrite decide_False by lia. apply lookup_ge_None_2. lia.
Qed.

(** C7: [Qualifier] gives the empty string for the nil package, the alias
    whenever the alias is not empty, and otherwise the declared name of the
    package. *)
Theorem Qualifier_cases :
  Qualifier None = Ret ""%string
  ∧ (∀ p, Alias p ≠ ""%string → Qualifier (Some p) = Ret (Alias p))
  ∧ (∀ p tp, Alias p = ""%string → pkg p = Some tp →
       Qualifier (Some p) = Ret (types.Name tp)).
Proof.
  split; [reflexivity|split].
  - intros p Ha. unfold Qualifier. by rewrite decide_True.
  - intros p tp Ha Hp. unfold Qualifier.
    rewrite decide_False by (intros H; by apply H). by rewrite Hp.
Qed.

(** A package without alias and without [*types.Package] has no qualifier
    to give. *)
Lemma Qualifier_nil_pkg : Qualifier (Some {| pkg := None; Alias := "" |}) = Panic.
Proof. reflexivity. Qed.

Lemma uniqueName_loop_three (a b c : string) (n : nat) :
  uniqueName_loop [a; b; c] n =
  match n with
  | O => ""%string
  | 1%nat => uniqueName_loop [a] 1
  | 2%nat => uniqueName_loop [a; b] 2
  | _ => uniqueName_loop [a; b; c] 3
  end.
Proof.
  destruct n as [|[|[|n]]]; [done..|].
  unfold uniqueName_loop. cbn [take]. by rewrite take_nil.
Qed.

(** C1: the two import paths [github.com/foo/go-bar] and
    [github.com/foo/bar] are distinct, and yet [uniqueName] gives the same
    name for both at every level: no depth tells them apart. *)
Theorem uniqueName_same_at_every_level :
  Path (Some goBar) ≠ Path (Some bar)
  ∧ ∀ lvl, uniqueName goBar lvl = uniqueName bar lvl.
Proof.
  split; [discriminate|].
  intros lvl. unfold uniqueName. cbn [Path goBar bar pkg mbind outcome_bind].
  change (stripVendorPath (types.Path {| types.Name := "bar"; types.Path := "github.com/foo/go-bar" |}))
    with "github.com/foo/go-bar"%string.
  change (stripVendorPath (types.Path {| types.Name := "bar"; types.Path := "github.com/foo/bar" |}))
    with "github.com/foo/bar"%string.
  change (reverse (strings.Split "github.com/foo/go-bar" "/"))
    with ["go-bar"; "foo"; "github.com"]%string.
  change (reverse (strings.Split "github.com/foo/bar" "/"))
    with ["bar"; "foo"; "github.com"]%string.
  f_equal. cbn [length].
  generalize (Z.to_nat (min (Z.of_nat 3) (wrap64 (lvl + 1)))). intros k.
  rewrite (uniqueName_loop_three "go-bar"), (uniqueName_loop_three "bar").
  by destruct k as [|[|[|k]]].
Qed.

(** *** The fuel of the escalation *)

Lemma Qualifier_not_Diverge (p : option Package) : Qualifier p ≠ Diverge.
Proof.
  destruct p as [p|]; [|done]. unfold Qualifier.
  case_decide; [done|]. by destruct (pkg p).
Qed.

Lemma Split_nonempty (s : string) (sep : ascii) : (0 < length (strings.Split s sep))%nat.
Proof.
  induction s as [|c s IH]; cbn [strings.Split]; [simpl; lia|].
  case_decide; [simpl; lia|].
  destruct (strings.Split s sep); simpl; lia.
Qed.

Lemma Path_not_Diverge (p : option Package) : Path p ≠ Diverge.
Proof. destruct p as [p|]; [|done]. unfold Path. by destruct (pkg p). Qed.

Lemma uniqueName_not_Diverge (p : Package) (lvl : Z) : uniqueName p lvl ≠ Diverge.
Proof.
  unfold uniqueName. pose proof (Path_not_Diverge (Some p)).
  by destruct (Path (Some p)).
Qed.

Lemma searchImport_not_Diverge (r : Registry) (name : string) :
  searchImport r name ≠ Diverge.
Proof.
  unfold searchImport. induction (packages r) as [|[path p] l IH]; [done|].
  cbn [searchImport_in]. pose proof (Qualifier_not_Diverge (Some p)).
  destruct (Qualifier (Some p)); [|done..]. cbn [mbind outcome_bind].
  by case_decide.
Qed.

(** From the level of the whole path on, [uniqueName] gives the same
    name. *)
Lemma uniqueName_stable (p : Package) (path : string) (lvl : Z) :
  Path (Some p) = Ret path →
  Z.of_nat (length (strings.Split path "/")) - 1 ≤ lvl < 2 ^ 63 - 1 →
  uniqueName p lvl = uniqueName p (Z.of_nat (length (strings.Split path "/")) - 1).
Proof.
  intros Hpath Hlvl. unfold uniqueName. rewrite Hpath. cbn [mbind outcome_bind].
  pose proof (Split_nonempty path "/") as Hpos.
  rewrite reverse_rev, length_rev.
  rewrite !wrap64_small by lia. unfold min.
  repeat case_decide; do 3 f_equal; lia.
Qed.

(** The escalation runs out of fuel exactly when all the levels it has
    fuel for collide. *)
Lemma escalate_Diverge (r : Registry) (p : Package) (fuel : nat) :
  ∀ lvl, escalate fuel r p lvl = Diverge
         ↔ ∀ k, (k < fuel)%nat → collides r p (lvl + Z.of_nat k).
Proof.
  induction fuel as [|fuel IH]; intros lvl; cbn [escalate].
  { split; [intros _ k Hk; lia|done]. }
  pose proof (uniqueName_not_Diverge p lvl) as Hu.
  destruct (uniqueName p lvl) as [name| |] eqn:Hname; [|split; [done|]|done].
  - cbn [mbind outcome_bind].
    pose proof (searchImport_not_Diverge r name) as Hs.
    destruct (searchImport r name) as [[q|]| |] eqn:Hsearch; cbn [mbind outcome_bind].
    + rewrite IH. split.
      * intros Hrest [|k] Hk.
        -- rewrite Z.add_0_r. by exists name, q.
        -- replace (lvl + Z.of_nat (S k)) with (lvl + 1 + Z.of_nat k) by lia.
           apply Hrest. lia.
      * intros Hall k Hk.
        replace (lvl + 1 + Z.of_nat k) with (lvl + Z.of_nat (S k)) by lia.
        apply Hall. lia.
    + split; [done|]. intros Hall.
      destruct (Hall 0%nat ltac:(lia)) as (name' & q & Hn & Hq).
      rewrite Z.add_0_r in Hn. congruence.
    + split; [done|]. intros Hall.
      destruct (Hall 0%nat ltac:(lia)) as (name' & q & Hn & Hq).
      rewrite Z.add_0_r in Hn. congruence.
    + done.
  - intros Hall. destruct (Hall 0%nat ltac:(lia)) as (name' & q & Hn & Hq).
    rewrite Z.add_0_r in Hn. congruence.
Qed.

(** The fuel that [AddImport] hands to the escalation is exact: when it is
    used up, no amount of fuel makes the escalation return. *)
Lemma escalate_fuel_exact (r : Registry) (p : Package) (path : string) (fuel : nat) :
  Path (Some p) = Ret path →
  escalate (length (strings.Split path "/")) r p 0 = Diverge →
  Z.of_nat fuel < 2 ^ 63 - 1 →
  escalate fuel r p 0 = Diverge.
Proof.
  intros Hpath Hdiv Hfuel.
  pose proof (Split_nonempty path "/") as Hpos.
  rewrite escalate_Diverge in Hdiv. apply escalate_Diverge. intros k Hk.
  destruct (decide (k < length (strings.Split path "/"))%nat) as [Hlt|Hge];
    [by apply Hdiv|].
  destruct (Hdiv (length (strings.Split path "/") - 1)%nat ltac:(lia))
    as (name & q & Hname & Hq).
  exists name, q. split; [|done].
  rewrite (uniqueName_stable p path) by (done || lia).
  rewrite <-Hname. f_equal. lia.
Qed.

(** In the registry as the spec describes it, a package steps aside to the
    first level whose name is free.  Four packages called [bar] whose paths
    differ only in what [replacer] strips use up the three levels there
    are: for the fourth the escalation never ends. *)
Lemma AddImport_escalation_exhausted :
  ∃ r1 r2 r3 p1 p2 p3,
    AddImport {| packages := [] |} (barAt "github.com/foo/go-bar") = Ret (r1, p1)
    ∧ AddImport r1 (barAt "github.com/foo/bar") = Ret (r2, p2)
    ∧ AddImport r2 (barAt "github.com/foo/b-ar") = Ret (r3, p3)
    ∧ [Qualifier p1; Qualifier p2; Qualifier p3]
      = [Ret "bar"; Ret "foobar"; Ret "githubcomfoobar"]%string
    ∧ AddImport r3 (barAt "github.com/foo/ba-r") = Diverge.
Proof. do 6 eexists. repeat split; reflexivity. Qed.

(** ** Names of variables *)

(** C4: a parameter declared as [string string] keeps its declared name:
    [varName] returns before the list of reserved names is consulted, and
    [AddVar] allocates the name of a basic type. *)
Theorem AddVar_declared_string_stays :
  ∀ varNameForType,
    varName varNameForType (stringVar "string") "" = "string"%string
    ∧ "string"%string ∈ reservedNames
    ∧ names <$> AddVars varNameForType map_to_list
                  (newMethodScope emptyRegistry "") [(stringVar "string", ""%string)]
      = Ret ["string"%string].
Proof.
  intros f. split; [reflexivity|split]; [|reflexivity].
  unfold reservedNames. set_solver.
Qed.

(** What [varName] makes up for a variable without a name of its own is
    never one of the reserved names. *)
Lemma varName_made_up_not_reserved varNameForType vr suffix :
  types.VarName vr = ""%string ∨ types.VarName vr = "_"%string →
  varName varNameForType vr suffix ∉ reservedNames.
Proof.
  intros Hblank. unfold varName.
  rewrite decide_False by (intros [??]; destruct Hblank; done).
  cbv zeta. case_decide as Hin; [|done].
  revert Hin. generalize (varNameForType (types.VarType vr) +:+ suffix).
  intros s Hin Hin'.
  assert (Forall (fun x => x +:+ "MiripParam" ∉ reservedNames) reservedNames) as HF.
  { apply (bool_decide_unpack _). by vm_compute. }
  rewrite Forall_forall in HF. by apply (HF s).
Qed.

(** C3: with the parameters [vOut] and [vOut2] and the result [v], whose
    name gets the suffix [Out], two variables of the scope end up with the
    name [vOut2]; and with the package [k8s.io/api/core/v1] registered
    under its name [v1], two variables asking for [v] make the first one
    take the qualifier [v1] as its name. *)
Theorem AddVar_names_collide :
  ∀ varNameForType,
    names <$> AddVars varNameForType map_to_list (newMethodScope emptyRegistry "")
                [(intVar "vOut", ""); (intVar "vOut2", ""); (intVar "v", "Out")]%string
    = Ret ["vOut1"; "vOut2"; "vOut2"]%string
    ∧ ∃ r m,
        AddImport emptyRegistry coreV1 = Ret (r, Some {| pkg := Some coreV1; Alias := "" |})
        ∧ AddVars varNameForType map_to_list (newMethodScope r "")
            [(intVar "v", ""); (intVar "v", "")]%string = Ret m
        ∧ names m = ["v1"; "v2"]%string
        ∧ qualifiers (registry m) = [Ret "v1"%string].
Proof.
  intros f. split; [reflexivity|].
  do 2 eexists. split; [reflexivity|]. split; [reflexivity|]. split; reflexivity.
Qed.

(** C5: the numbered name that [AddVar] hands out is not always a free
    one, and the search does not always give one.  After the calls for
    [v] and [v2], a second [v] finds [v1] free, renames the first [v] to
    it and takes [v2] without a look at the scope: two variables bear
    [v2].  After the calls for [v], [v] and [v1] the variables are [v11],
    [v2] and [v12] and the name [v] is marked as conflicted while no
    variable bears it or [v1]: a further [v] makes the search dereference
    nil. *)
Theorem AddVars_numbered_name_not_free :
  ∀ varNameForType,
    names <$> AddVars varNameForType map_to_list (newMethodScope emptyRegistry "")
                [(intVar "v", ""); (intVar "v2", ""); (intVar "v", "")]%string
    = Ret ["v1"; "v2"; "v2"]%string
    ∧ names <$> AddVars varNameForType map_to_list (newMethodScope emptyRegistry "")
                  [(intVar "v", ""); (intVar "v", ""); (intVar "v1", "")]%string
      = Ret ["v11"; "v2"; "v12"]%string
    ∧ AddVars varNameForType map_to_list (newMethodScope emptyRegistry "")
        [(intVar "v", ""); (intVar "v", ""); (intVar "v1", ""); (intVar "v", "")]%string
      = Panic.
Proof. intros f. split; [reflexivity|]. split; reflexivity. Qed.

(** *** The search for a free numbered name *)

Lemma Itoa_inj (a b : Z) : strconv.Itoa a = strconv.Itoa b → a = b.
Proof. unfold strconv.Itoa. apply (inj pretty). Qed.

Lemma numbered_inj (s : string) (a b : Z) :
  s +:+ strconv.Itoa a = s +:+ strconv.Itoa b → a = b.
Proof. intros H. by apply Itoa_inj, (inj (String.app s)). Qed.

Lemma Itoa_nonempty (n : Z) : strconv.Itoa n ≠ ""%string.
Proof.
  intros H. assert (String.length (strconv.Itoa n) = 0%nat) as Hl by (by rewrite H).
  clear H. unfold strconv.Itoa, pretty, pretty_Z in Hl.
  assert (∀ x s, (String.length s ≤ String.length (pretty_N_go x s))%nat) as help.
  { intros x. induction (N.lt_wf_0 x) as [x _ IH]; intros s.
    assert (x = 0 ∨ 0 < x)%N as [->|?] by lia; [by rewrite pretty_N_go_0|].
    rewrite pretty_N_go_step by done.
    etrans; [|by eapply IH, N.div_lt]. simpl; lia. }
  assert (∀ p : positive, (0 < String.length (pretty p))%nat) as Hpos.
  { intros p. unfold pretty, pretty_positive, pretty, pretty_N.
    rewrite decide_False by done. rewrite pretty_N_go_step by lia.
    eapply Nat.lt_le_trans; [|apply help]. simpl; lia. }
  destruct n as [|p|p]; simpl in Hl; [done| |done].
  specialize (Hpos p). lia.
Qed.

Lemma string_app_empty_r (s : string) : s +:+ "" = s.
Proof.
  induction s as [|c s IH]; [done|].
  change (String c (s +:+ "") = String c s). by rewrite IH.
Qed.

Lemma numbered_ne (s : string) (n : Z) : s +:+ strconv.Itoa n ≠ s.
Proof.
  intros H. apply (Itoa_nonempty n).
  apply (inj (String.app s)). rewrite H. symmetry. apply string_app_empty_r.
Qed.

Lemma searchVar_in_None (vs : list Var) (name : string) :
  searchVar_in vs name = None ↔ name ∉ Name <$> vs.
Proof.
  unfold searchVar_in. rewrite fmap_None, list_find_None, Forall_forall.
  rewrite list_elem_of_fmap. split.
  - intros H (v & Hname & Hv). by apply (H v).
  - intros H v Hv Hname. apply H. by exists v.
Qed.

Lemma searchVar_in_is_Some (vs : list Var) (name : string) :
  is_Some (searchVar_in vs name) ↔ name ∈ Name <$> vs.
Proof.
  rewrite <-not_eq_None_Some, searchVar_in_None.
  destruct (decide (name ∈ Name <$> vs)); naive_solver.
Qed.

Lemma searchVar_in_Some (vs : list Var) (name : string) (i : nat) :
  searchVar_in vs name = Some i ↔
  ∃ v, vs !! i = Some v ∧ Name v = name
       ∧ ∀ j w, vs !! j = Some w → (j < i)%nat → Name w ≠ name.
Proof.
  unfold searchVar_in. rewrite fmap_Some. split.
  - intros ([j v] & Hfind%list_find_Some & ->). exists v. naive_solver.
  - intros (v & ? & ? & ?). exists (i, v). split; [|done].
    apply list_find_Some. naive_solver.
Qed.

Lemma numbered_taken_bound (m : MethodScope) (s : string) (n : Z) :
  (∀ k, 1 ≤ k < n → s +:+ strconv.Itoa k ∈ names m) →
  n - 1 ≤ Z.of_nat (length (vars m)).
Proof.
  intros Htaken.
  set (name := fun i : nat => s +:+ strconv.Itoa (Z.of_nat (S i))).
  assert (Inj (=) (=) name) as Hinj.
  { intros i j Hij. apply numbered_inj in Hij. lia. }
  assert ((name <$> seq 0 (Z.to_nat (n - 1))) ⊆+ names m) as Hsub.
  { apply NoDup_submseteq.
    - apply (NoDup_fmap_2 name), NoDup_seq.
    - intros x (i & -> & Hi%elem_of_seq)%list_elem_of_fmap.
      apply Htaken. lia. }
  apply submseteq_length in Hsub.
  unfold names in Hsub. rewrite !length_fmap, length_seq in Hsub. lia.
Qed.

Lemma resolveVarNameConflict_from_least (m : MethodScope) (s : string) (fuel : nat) :
  ∀ n,
    1 ≤ n →
    Z.of_nat (length (vars m)) < 2 ^ 63 - 1 →
    (∀ k, 1 ≤ k < n → s +:+ strconv.Itoa k ∈ names m) →
    Z.of_nat (length (vars m)) + 1 < n + Z.of_nat fuel →
    ∃ n', n ≤ n'
          ∧ (s +:+ strconv.Itoa n' ∉ names m)
          ∧ (∀ k, 1 ≤ k < n' → s +:+ strconv.Itoa k ∈ names m)
          ∧ resolveVarNameConflict_from fuel m s n = resolvedAt m s n'.
Proof.
  induction fuel as [|fuel IH]; intros n Hn Hlen Htaken Hfuel.
  { apply numbered_taken_bound in Htaken. lia. }
  cbn [resolveVarNameConflict_from].
  destruct (searchVar m (s +:+ strconv.Itoa n)) as [i|] eqn:Hsearch.
  - assert (s +:+ strconv.Itoa n ∈ names m) as Hin.
    { apply searchVar_in_is_Some. unfold searchVar in Hsearch. by rewrite Hsearch. }
    assert (∀ k, 1 ≤ k < n + 1 → s +:+ strconv.Itoa k ∈ names m) as Htaken'.
    { intros k Hk. destruct (decide (k = n)) as [->|]; [done|]. apply Htaken. lia. }
    pose proof (numbered_taken_bound _ _ _ Htaken') as Hbound.
    rewrite wrap64_small by lia.
    destruct (IH (n + 1)) as (n' & ? & ? & ? & ?); [lia|done|done|lia|].
    exists n'. split_and!; [lia|done..].
  - exists n. split_and!; [lia| |done|].
    + by apply searchVar_in_None.
    + unfold resolvedAt. destruct (decide (n = 1)) as [->|]; [|done].
      by destruct (searchVar m s).
Qed.

(** With the fuel it is given, the loop of [resolveVarNameConflict] ends at
    the first number whose name is free. *)
Lemma resolveVarNameConflict_least (m : MethodScope) (s : string) :
  Z.of_nat (length (vars m)) < 2 ^ 63 - 1 →
  ∃ n, 1 ≤ n
       ∧ (s +:+ strconv.Itoa n ∉ names m)
       ∧ (∀ k, 1 ≤ k < n → s +:+ strconv.Itoa k ∈ names m)
       ∧ resolveVarNameConflict m s = resolvedAt m s n.
Proof.
  intros Hlen. unfold resolveVarNameConflict.
  apply resolveVarNameConflict_from_least; [done|done|intros; lia|lia].
Qed.

Lemma resolveVarNameConflict_returns (m : MethodScope) (s : string) :
  Z.of_nat (length (vars m)) < 2 ^ 63 - 1 →
  resolveVarNameConflict m s ≠ Diverge.
Proof.
  intros Hlen. destruct (resolveVarNameConflict_least m s Hlen) as (n & _ & _ & _ & ->).
  unfold resolvedAt. case_decide; [|done]. by destruct (searchVar m s).
Qed.

Lemma least_free_unique (m : MethodScope) (s : string) (a b : Z) :
  (s +:+ strconv.Itoa a) ∉ names m →
  (∀ k, 1 ≤ k < a → s +:+ strconv.Itoa k ∈ names m) →
  (s +:+ strconv.Itoa b) ∉ names m →
  (∀ k, 1 ≤ k < b → s +:+ strconv.Itoa k ∈ names m) →
  1 ≤ a → 1 ≤ b → a = b.
Proof.
  intros Ha Hbelow_a Hb Hbelow_b ??.
  destruct (Z.lt_trichotomy a b) as [?|[?|?]]; [|done|].
  - destruct Ha. apply Hbelow_b. lia.
  - destruct Hb. apply Hbelow_a. lia.
Qed.

(** C9: when the name asked for is borne by a variable of the scope and
    its form with [1] is borne as well, [AddVar] leaves the earlier
    variables and the conflicted names as they are, and the new variable
    gets the name with the least number from 2 on that no variable bears. *)
Theorem AddVar_numbered_from_two
    (varNameForType : types.Type_ → string)
    (enum : gmap string (option Package) → list (string * option Package))
    (m : MethodScope) (vr : types.Var) (suffix : string)
    (imports : gmap string (option Package)) (m1 : MethodScope) (name : string) :
  prepare varNameForType enum m vr suffix = Ret (imports, m1, name) →
  is_Some (searchVar m1 name) →
  is_Some (searchVar m1 (name +:+ "1")) →
  Z.of_nat (length (vars m1)) < 2 ^ 63 - 1 →
  ∃ n, 2 ≤ n
       ∧ searchVar m1 (name +:+ strconv.Itoa n) = None
       ∧ (∀ k, 2 ≤ k < n → is_Some (searchVar m1 (name +:+ strconv.Itoa k)))
       ∧ AddVar varNameForType enum m vr suffix
         = Ret (length (vars m1),
                appendVar m1 {| vr := vr; imports := imports;
                                pkgPath := miripPkgPath m1;
                                Name := name +:+ strconv.Itoa n |}).
Proof.
  intros Hprep Hname Hone Hlen.
  destruct (resolveVarNameConflict_least m1 name Hlen) as (n & Hn & Hfree & Hbelow & Hres).
  assert (n ≠ 1) as Hn1.
  { intros ->. apply Hfree. by apply searchVar_in_is_Some. }
  exists n. split_and!; [lia| | |].
  - by apply searchVar_in_None.
  - intros k Hk. apply searchVar_in_is_Some, Hbelow. lia.
  - unfold AddVar. rewrite Hprep. cbn [mbind outcome_bind]. unfold place.
    rewrite decide_True by (by left). rewrite Hres. unfold resolvedAt.
    by rewrite decide_False.
Qed.

(** The concrete case of the witness: the third variable is [v2]. *)
Example AddVar_v_v1_v :
  names <$> AddVars (fun _ => "x") map_to_list (scopeOf emptyRegistry ["v"; "v1"])
              [(intVar "v", "")]
  = Ret ["v"; "v1"; "v2"].
Proof. reflexivity. Qed.

(** *** Variables that ask for the same name *)

Lemma names_appendVar (m : MethodScope) (v : Var) :
  names (appendVar m v) = names m ++ [Name v].
Proof. unfold names, appendVar. cbn [vars]. by rewrite fmap_app. Qed.

Lemma numbered_S (c : string) (k : nat) :
  numbered c (S k) = numbered c k ++ [c +:+ strconv.Itoa (Z.of_nat (S k))].
Proof. unfold numbered. by rewrite seq_S, fmap_app. Qed.

Lemma elem_of_numbered (c : string) (k : nat) (x : string) :
  x ∈ numbered c k ↔ ∃ i, 1 ≤ i ≤ Z.of_nat k ∧ x = c +:+ strconv.Itoa i.
Proof.
  unfold numbered. rewrite list_elem_of_fmap. split.
  - intros (i & -> & Hi%elem_of_seq). exists (Z.of_nat i). split; [lia|done].
  - intros (i & Hi & ->). exists (Z.to_nat i). split.
    + by rewrite Z2Nat.id by lia.
    + apply elem_of_seq. lia.
Qed.

Lemma place_free (m : MethodScope) (vr : types.Var)
    (imports : gmap string (option Package)) (name : string) :
  name ∉ names m →
  default false (conflicted m !! name) = false →
  place m vr imports name
  = Ret (length (vars m),
         appendVar m {| vr := vr; imports := imports;
                        pkgPath := miripPkgPath m; Name := name |}).
Proof.
  intros Hfree Hconf. unfold place. rewrite decide_False; [done|].
  intros [Hs%searchVar_in_is_Some|Ht]; [done|]. by rewrite Hconf in Ht.
Qed.

Section SameName.

Context (varNameForType : types.Type_ → string).
Context (enum : gmap string (option Package) → list (string * option Package)).
Context (m : MethodScope) (c : string).
Hypothesis c_free : c ∉ names m.
Hypothesis numbered_free : ∀ n, 1 ≤ n → c +:+ strconv.Itoa n ∉ names m.
Hypothesis c_unmarked : default false (conflicted m !! c) = false.

Lemma AddVar_same_step (j : nat) (m' : MethodScope) (call : types.Var * string) :
  afterSame m c j m' →
  arrivesAt varNameForType enum m c call →
  Z.of_nat (length (vars m')) < 2 ^ 63 - 1 →
  ∃ i m'', AddVar varNameForType enum m' call.1 call.2 = Ret (i, m'')
           ∧ afterSame m c (S j) m''.
Proof.
  intros (Hreg & Hnames & Hconf) Harr Hlen.
  destruct (Harr m' Hreg) as (imps & Hprep).
  unfold AddVar. rewrite Hprep. cbn [mbind outcome_bind].
  destruct j as [|[|j]].
  - (* the first of them: the name is free *)
    cbn [sameNameNames numbered seq fmap list_fmap] in Hnames.
    rewrite app_nil_r in Hnames.
    rewrite place_free.
    + do 2 eexists. split; [done|]. split_and!.
      * done.
      * by rewrite names_appendVar, Hnames.
      * done.
    + by rewrite Hnames.
    + cbn [decide] in Hconf. rewrite decide_False in Hconf by lia.
      by rewrite Hconf.
  - (* the second: the first gives way to the name with 1 *)
    cbn [sameNameNames] in Hnames.
    rewrite decide_False in Hconf by lia.
    unfold names in Hnames. apply fmap_app_inv in Hnames
      as (vs & last & Hvs & Hlast & Hvars).
    destruct last as [|v [|??]]; simplify_eq/=.
    fold (names m) in Hvs.
    assert (searchVar m' (Name v) = Some (length vs)) as Hfound.
    { unfold searchVar. rewrite Hvars. apply searchVar_in_Some.
      exists v. split_and!.
      - by rewrite lookup_app_r, Nat.sub_diag.
      - done.
      - intros k w Hk Hlt Hw. apply c_free. rewrite Hvs.
        rewrite lookup_app_l in Hk by done.
        apply list_elem_of_fmap. exists w. split; [done|].
        by eapply list_elem_of_lookup_2. }
    unfold place. rewrite decide_True by (left; by rewrite Hfound).
    destruct (resolveVarNameConflict_least m' (Name v) Hlen)
      as (n & Hn & Hfree & Hbelow & ->).
    assert (n = 1) as ->.
    { destruct (decide (n = 1)) as [|Hne]; [done|].
      specialize (Hbelow 1 ltac:(lia)).
      unfold names in Hbelow. rewrite Hvars, fmap_app, elem_of_app in Hbelow.
      destruct Hbelow as [Hin|Hin].
      - rewrite <-Hvs in Hin. by destruct (numbered_free 1 ltac:(lia)).
      - apply list_elem_of_singleton in Hin. by apply numbered_ne in Hin. }
    unfold resolvedAt. rewrite decide_True by done. rewrite Hfound.
    cbn [mbind outcome_bind]. do 2 eexists. split; [done|]. split_and!.
    + done.
    + rewrite Hvs. unfold names. cbn [vars]. rewrite Hvars.
      rewrite <-(Nat.add_0_r (length vs)), alter_app_r.
      by rewrite !fmap_app, <-app_assoc.
    + cbn [conflicted]. rewrite decide_True by lia. by rewrite Hconf.
  - (* from the third on: the next number *)
    set (k := S (S j)) in *.
    assert (sameNameNames c k = numbered c k) as Hsame by done.
    rewrite Hsame in Hnames. rewrite decide_True in Hconf by lia.
    unfold place. rewrite decide_True.
    2:{ right. by rewrite Hconf, lookup_insert_eq. }
    destruct (resolveVarNameConflict_least m' c Hlen)
      as (n & Hn & Hfree & Hbelow & ->).
    assert (n = Z.of_nat (S k)) as ->.
    { apply (least_free_unique m' c); [done|done| | |done|lia].
      - rewrite Hnames, not_elem_of_app. split; [apply numbered_free; lia|].
        intros (i & Hi & Heq%numbered_inj)%elem_of_numbered. lia.
      - intros i Hi. rewrite Hnames, elem_of_app. right.
        apply elem_of_numbered. exists i. split; [lia|done]. }
    unfold resolvedAt. rewrite decide_False by lia.
    cbn [mbind outcome_bind]. do 2 eexists. split; [done|]. split_and!.
    + done.
    + change (sameNameNames c (S k)) with (numbered c (S k)).
      rewrite numbered_S, app_assoc, <-Hnames. unfold names. cbn [vars].
      by rewrite fmap_app.
    + cbn [conflicted]. by rewrite decide_True by lia.
Qed.

Lemma length_sameNameNames (j : nat) : length (sameNameNames c j) = j.
Proof.
  destruct j as [|[|j]]; [done..|].
  unfold sameNameNames, numbered. by rewrite length_fmap, length_seq.
Qed.

Lemma afterSame_length (j : nat) (m' : MethodScope) :
  afterSame m c j m' → length (vars m') = (length (vars m) + j)%nat.
Proof.
  intros (_ & Hnames & _). apply (f_equal length) in Hnames.
  unfold names in Hnames.
  by rewrite length_app, !length_fmap, length_sameNameNames in Hnames.
Qed.

Lemma AddVars_same_from (calls : list (types.Var * string)) :
  ∀ (j : nat) (m' : MethodScope),
    afterSame m c j m' →
    Forall (arrivesAt varNameForType enum m c) calls →
    Z.of_nat (length (vars m) + j + length calls) < 2 ^ 63 - 1 →
    ∃ m'', AddVars varNameForType enum m' calls = Ret m''
           ∧ afterSame m c (j + length calls) m''.
Proof.
  induction calls as [|call calls IH]; intros j m' Hafter Harr Hlen.
  { exists m'. split; [done|]. by rewrite Nat.add_0_r. }
  apply Forall_cons in Harr as [Hcall Hcalls]. cbn [length] in Hlen.
  destruct (AddVar_same_step j m' call Hafter Hcall) as (i & m1 & Hadd & Hafter1).
  { rewrite (afterSame_length j m' Hafter). lia. }
  destruct (IH (S j) m1 Hafter1 Hcalls) as (m'' & Hrun & Hafter'); [lia|].
  exists m''. split.
  - unfold AddVars. cbn [foldM]. rewrite Hadd. cbn [mbind outcome_bind]. exact Hrun.
  - cbn [length]. by rewrite Nat.add_succ_r.
Qed.

End SameName.

(** Where the numbering comes out as meant: variables that ask one after
    the other for a name [c] that is free in the scope, with no numbered
    form of it in use, by calls that leave the scope as it is before the
    name is placed ([arrivesAt]).  The first one gets [c]; with the second one the first is renamed to [c1] and [c] is
    marked as conflicted; after [k] of them, [k] from 2 on, their names are
    [c1], [c2], ... , [ck] in the order of the calls. *)
Theorem AddVars_same_name_numbered
    (varNameForType : types.Type_ → string)
    (enum : gmap string (option Package) → list (string * option Package))
    (m : MethodScope) (c : string) (calls : list (types.Var * string)) :
  c ∉ names m →
  (∀ n, 1 ≤ n → c +:+ strconv.Itoa n ∉ names m) →
  default false (conflicted m !! c) = false →
  Forall (arrivesAt varNameForType enum m c) calls →
  (2 ≤ length calls)%nat →
  Z.of_nat (length (vars m) + length calls) < 2 ^ 63 - 1 →
  ∃ m1 m',
    AddVars varNameForType enum m (take 1 calls) = Ret m1
    ∧ names m1 = names m ++ [c]
    ∧ conflicted m1 = conflicted m
    ∧ AddVars varNameForType enum m calls = Ret m'
    ∧ names m' = names m ++ numbered c (length calls)
    ∧ conflicted m' = <[c := true]> (conflicted m)
    ∧ registry m' = registry m.
Proof.
  intros Hc Hnum Hconf Harr Hk Hlen.
  assert (afterSame m c 0 m) as H0.
  { split_and!; [done| |done]. cbn. by rewrite app_nil_r. }
  destruct (AddVars_same_from varNameForType enum m c Hc Hnum Hconf
              (take 1 calls) 0%nat m H0) as (m1 & Hrun1 & Hafter1).
  { by apply Forall_take. }
  { rewrite length_take. lia. }
  destruct (AddVars_same_from varNameForType enum m c Hc Hnum Hconf
              calls 0%nat m H0 Harr) as (m' & Hrun & Hafter); [lia|].
  rewrite length_take, Nat.min_l in Hafter1 by lia.
  destruct Hafter1 as (_ & Hn1 & Hc1). destruct Hafter as (Hreg & Hn & Hcf).
  cbn [Nat.add] in *. rewrite decide_False in Hc1 by lia.
  rewrite decide_True in Hcf by lia.
  exists m1, m'. split_and!; try done.
  rewrite Hn. by destruct (length calls) as [|[|k]]; [lia..|].
Qed.

(** Nine variables asking for [v]. *)
Example AddVars_nine_v :
  names <$> AddVars (fun _ => "x") map_to_list (newMethodScope emptyRegistry "")
              (replicate 9 (intVar "v", ""))
  = Ret ["v1"; "v2"; "v3"; "v4"; "v5"; "v6"; "v7"; "v8"; "v9"].
Proof. reflexivity. Qed.

(** ** The imports of a type *)

Lemma bind_Ret {A B} (x : outcome A) (f : A → outcome B) (b : B) :
  x ≫= f = Ret b ↔ ∃ a, x = Ret a ∧ f a = Ret b.
Proof.
  destruct x as [a| |]; cbn; split; try (by intros (? & ? & ?)); try done.
  - intros H. by exists a.
  - by intros (a' & [= <-] & ?).
Qed.

Lemma lookupPath_None (r : Registry) (path : string) :
  lookupPath r path = None ↔ list_find (fun e => e.1 = path) (packages r) = None.
Proof. unfold lookupPath. apply fmap_None. Qed.

Lemma lookupPath_snoc_old (r : Registry) (path path' : string) (p q : Package) :
  lookupPath r path' = Some q →
  lookupPath {| packages := packages r ++ [(path, p)] |} path' = Some q.
Proof.
  unfold lookupPath. cbn [packages]. intros ([i e] & Hfind & ->)%fmap_Some.
  by rewrite (list_find_app_l _ _ _ _ _ Hfind).
Qed.

Lemma lookupPath_snoc_new (r : Registry) (path : string) (p : Package) :
  lookupPath r path = None →
  lookupPath {| packages := packages r ++ [(path, p)] |} path = Some p.
Proof.
  intros Hnone%lookupPath_None. unfold lookupPath. cbn [packages].
  rewrite list_find_app_r by done. cbn. by rewrite decide_True.
Qed.

(** What [AddImport] returns is a package, registered under the path
    without vendor prefix; what was registered stays as it was. *)
Lemma AddImport_Ret (r r' : Registry) (tp : types.Package) (p : option Package) :
  AddImport r tp = Ret (r', p) →
  (∃ q, p = Some q ∧ lookupPath r' (stripVendorPath (types.Path tp)) = Some q)
  ∧ ∀ path q, lookupPath r path = Some q → lookupPath r' path = Some q.
Proof.
  unfold AddImport.
  destruct (lookupPath r (stripVendorPath (types.Path tp))) as [q|] eqn:Hlook.
  - intros [= <- <-]. split; [by exists q|done].
  - intros (q0 & _ & (conflict & _ & (imprt & _ & [= <- <-])%bind_Ret)%bind_Ret)%bind_Ret.
    split.
    + exists imprt. split; [done|]. by apply lookupPath_snoc_new.
    + intros path q. apply lookupPath_snoc_old.
Qed.

Lemma foldM_populateImports (l : list types.Type_) :
  Forall walked l →
  ∀ st st', foldM (fun st t' => populateImports t' st) l st = Ret st' →
            (∀ path, recordedAt st path → recordedAt st' path)
            ∧ (∀ t tp, t ∈ l → owns t tp →
                 recordedAt st' (stripVendorPath (types.Path tp))).
Proof.
  induction 1 as [|t l Ht _ IH]; intros st st' Hrun.
  { injection Hrun as <-. split; [done|]. intros t tp Hin. by apply not_elem_of_nil in Hin. }
  cbn [foldM] in Hrun. apply bind_Ret in Hrun as (st1 & Hstep & Hrest).
  destruct (Ht _ _ Hstep) as [Hkeep1 Hrec1].
  destruct (IH _ _ Hrest) as [Hkeep Hrec].
  split; [by auto|].
  intros t' tp [->|Hin]%elem_of_cons Howns; [by auto|by eauto].
Qed.

Lemma populateImports_walked (t : types.Type_) : walked t.
Proof.
  induction t as
    [name|pkg name targs|elem IH|len elem IH|elem IH|key elem IHk IHe|elem IH
    |fields IH|ms es IHm IHe|ps rs IHp IHr|descr] using Type_ind_nested;
    intros st st' Hrun; cbn [populateImports] in Hrun.
  - injection Hrun as <-. split; [done|]. intros tp Howns. inversion Howns.
  - destruct pkg as [tp0|].
    + apply bind_Ret in Hrun as ([r p] & Hadd & [= <-]).
      apply AddImport_Ret in Hadd as [(q & -> & Hnew) Hold].
      split.
      * intros path (q' & Hreg & Hmap). exists q'. cbn [fst snd].
        split; [by apply Hold|].
        destruct (decide (stripVendorPath (types.Path tp0) = path)) as [<-|Hne].
        -- rewrite lookup_insert_eq. apply Hold in Hreg. congruence.
        -- by rewrite lookup_insert_ne.
      * intros tp Howns. inversion Howns; subst.
        exists q. cbn [fst snd]. split; [done|]. by rewrite lookup_insert_eq.
    + injection Hrun as <-. split; [done|]. intros tp Howns. inversion Howns.
  - destruct (IH _ _ Hrun) as [? Hrec]. split; [done|].
    intros tp Howns. inversion Howns; subst. by apply Hrec.
  - destruct (IH _ _ Hrun) as [? Hrec]. split; [done|].
    intros tp Howns. inversion Howns; subst. by apply Hrec.
  - destruct (IH _ _ Hrun) as [? Hrec]. split; [done|].
    intros tp Howns. inversion Howns; subst. by apply Hrec.
  - apply bind_Ret in Hrun as (st1 & Hkey & Helem).
    destruct (IHk _ _ Hkey) as [Hkeep1 Hrec1].
    destruct (IHe _ _ Helem) as [Hkeep2 Hrec2].
    split; [by auto|].
    intros tp Howns. inversion Howns; subst; by auto.
  - destruct (IH _ _ Hrun) as [? Hrec]. split; [done|].
    intros tp Howns. inversion Howns; subst. by apply Hrec.
  - destruct (foldM_populateImports _ IH _ _ Hrun) as [? Hrec]. split; [done|].
    intros tp Howns. inversion Howns; subst. by eauto.
  - apply bind_Ret in Hrun as (st1 & Hms & Hes).
    destruct (foldM_populateImports _ IHm _ _ Hms) as [Hkeep1 Hrec1].
    destruct (foldM_populateImports _ IHe _ _ Hes) as [Hkeep2 Hrec2].
    split; [by auto|].
    intros tp Howns. inversion Howns; subst; by eauto.
  - apply bind_Ret in Hrun as (st1 & Hps & Hrs).
    destruct (foldM_populateImports _ IHp _ _ Hps) as [Hkeep1 Hrec1].
    destruct (foldM_populateImports _ IHr _ _ Hrs) as [Hkeep2 Hrec2].
    split; [by auto|].
    intros tp Howns. inversion Howns; subst; by eauto.
  - injection Hrun as <-. split; [done|]. intros tp Howns. inversion Howns.
Qed.

Lemma resolveVarNameConflict_from_registry (m : MethodScope) (s : string) (fuel : nat) :
  ∀ n name m', resolveVarNameConflict_from fuel m s n = Ret (name, m') →
               registry m' = registry m ∧ miripPkgPath m' = miripPkgPath m.
Proof.
  induction fuel as [|fuel IH]; intros n name m' Hrun; [done|].
  cbn [resolveVarNameConflict_from] in Hrun.
  destruct (searchVar m (s +:+ strconv.Itoa n)); [by eauto|].
  destruct (decide (n = 1)); [|by injection Hrun as <- <-].
  destruct (searchVar m s); [|done]. by injection Hrun as <- <-.
Qed.

(** What [place] returns is the index of a variable that carries the map
    of imports handed in; the registry is as before. *)
Lemma place_Ret (m m' : MethodScope) (vr : types.Var)
    (imps : gmap string (option Package)) (name : string) (i : nat) :
  place m vr imps name = Ret (i, m') →
  registry m' = registry m
  ∧ ∃ v, vars m' !! i = Some v ∧ registry.vr v = vr ∧ imports v = imps.
Proof.
  unfold place. intros ([name' m2] & Hres & [= <- <-])%bind_Ret. cbn [registry vars].
  assert (registry m2 = registry m) as Hreg.
  { case_decide; [|by injection Hres as <- <-].
    by apply resolveVarNameConflict_from_registry in Hres as [??]. }
  split; [done|]. eexists. split.
  - by rewrite lookup_app_r, Nat.sub_diag.
  - done.
Qed.

(** What the walk does reach: when [AddVar] has returned, every package
    that owns a named type met in the type of the variable - through
    pointers, arrays, slices,
    maps, channels, structs, interfaces and signatures - is registered
    under its path, and the map of imports of the new variable holds the
    registered package under that path. *)
Theorem AddVar_registers_packages
    (varNameForType : types.Type_ → string)
    (enum : gmap string (option Package) → list (string * option Package))
    (m m' : MethodScope) (vr : types.Var) (suffix : string) (i : nat) :
  AddVar varNameForType enum m vr suffix = Ret (i, m') →
  ∃ v, vars m' !! i = Some v
       ∧ registry.vr v = vr
       ∧ ∀ tp, owns (types.VarType vr) tp →
           ∃ p, lookupPath (registry m') (stripVendorPath (types.Path tp)) = Some p
                ∧ imports v !! stripVendorPath (types.Path tp) = Some (Some p).
Proof.
  unfold AddVar. intros ([[imps m1] name] & Hprep & Hplace)%bind_Ret.
  unfold prepare in Hprep.
  apply bind_Ret in Hprep as ([r imps'] & Hwalk & Hprep).
  apply bind_Ret in Hprep as (m2 & Hres & Hprep).
  apply bind_Ret in Hprep as (found & _ & [= <- <- <-]).
  unfold resolveImportVarConflicts in Hres.
  apply bind_Ret in Hres as (vs & _ & [= <-]).
  apply place_Ret in Hplace as (Hreg & v & Hv & Hvr & Himps).
  cbn [registry] in Hreg.
  exists v. split_and!; [done..|].
  intros tp Howns.
  destruct (populateImports_walked _ _ _ Hwalk) as [_ Hrec].
  destruct (Hrec tp Howns) as (p & Hp & Hmap). cbn [fst snd] in Hp, Hmap.
  exists p. by rewrite Hreg, Himps.
Qed.

(** C6: the type arguments of a named type are not walked.  For the
    variable [g p1.G[q.T]], [AddVar] returns with the package [p1]
    registered and recorded in the imports of the variable, and with the
    package [q] neither registered nor recorded.  Whatever the type
    arguments of a named type are, [populateImports] comes to what it
    comes to without them. *)
Theorem AddVar_misses_type_arguments :
  ∀ varNameForType,
    (∃ m v,
       AddVar varNameForType map_to_list (newMethodScope emptyRegistry "") genericVar ""
       = Ret (0%nat, m)
       ∧ vars m = [v]
       ∧ (packages (registry m)).*1 = ["example.com/p1"]
       ∧ (map_to_list (imports v)).*1 = ["example.com/p1"]
       ∧ lookupPath (registry m) "example.com/q" = None
       ∧ imports v !! "example.com/q" = None)
    ∧ ∀ tp name targs st,
        populateImports (types.Named (Some tp) name targs) st
        = populateImports (types.Named (Some tp) name []) st.
Proof.
  intros f. split; [|done].
  do 2 eexists. split; [reflexivity|]. split; [reflexivity|].
  split; [reflexivity|]. split; [reflexivity|]. split; reflexivity.
Qed.

(** The three packages of [handlersType] are the ones registered, the
    vendored one under its path without the vendor prefix. *)
Example handlersScope_registry :
  (packages (registry handlersScope)).*1 = ["context"; "net/http"; "example.com/lib/io"]
  ∧ owns handlersType contextPkg ∧ owns handlersType httpPkg ∧ owns handlersType ioPkg.
Proof.
  split; [reflexivity|]. unfold handlersType. split_and!.
  - apply owns_Map_key. constructor.
  - apply owns_Map_elem, owns_Pointer.
    eapply owns_Struct; [apply list_elem_of_here|]. apply owns_Slice. constructor.
  - apply owns_Map_elem, owns_Pointer.
    eapply owns_Struct; [apply list_elem_of_further, list_elem_of_here|].
    eapply owns_Signature_param; [apply list_elem_of_here|]. constructor.
Qed.

(** ** The order of the range over the imports *)

Lemma range_order_map_to_list : range_order map_to_list.
Proof. by intros imps. Qed.

Lemma range_order_backwards : range_order backwards.
Proof. intros imps. unfold backwards. symmetry. apply Permutation_rev. Qed.

(** C2: the names that a sequence of [AddVar] calls leaves depend on the
    order in which [resolveImportVarConflicts] ranges over the map of
    imports.  For [a int] followed by [m map[a.K]aMirippParam.V] the order
    of [map_to_list] and its reverse are both orders of a range; in the
    first the variable [a] ends as [aMirippParamMirippParam], in the
    second as [aMirippParam], which is the qualifier of a package that the
    call has just imported.  So no function of the calls alone gives the
    outcome. *)
Theorem AddVars_depends_on_range_order :
  ∀ varNameForType,
    range_order map_to_list ∧ range_order backwards
    ∧ (∃ m, AddVars varNameForType map_to_list (newMethodScope emptyRegistry "") orderCalls
            = Ret m
            ∧ names m = ["aMirippParamMirippParam"; "m"]
            ∧ qualifiers (registry m) = [Ret "a"; Ret "aMirippParam"])
    ∧ (∃ m, AddVars varNameForType backwards (newMethodScope emptyRegistry "") orderCalls
            = Ret m
            ∧ names m = ["aMirippParam"; "m"]
            ∧ qualifiers (registry m) = [Ret "a"; Ret "aMirippParam"])
    ∧ ¬ ∀ enum1 enum2 m calls,
          range_order enum1 → range_order enum2 →
          AddVars varNameForType enum1 m calls = AddVars varNameForType enum2 m calls.
Proof.
  intros f.
  split; [apply range_order_map_to_list|]. split; [apply range_order_backwards|].
  split; [eexists; split; [reflexivity|]; split; reflexivity|].
  split; [eexists; split; [reflexivity|]; split; reflexivity|].
  intros Hsame.
  specialize (Hsame map_to_list backwards (newMethodScope emptyRegistry "") orderCalls
                range_order_map_to_list range_order_backwards).
  assert (names <$> AddVars f map_to_list (newMethodScope emptyRegistry "") orderCalls
          = Ret ["aMirippParamMirippParam"; "m"]) as Hrun1 by reflexivity.
  assert (names <$> AddVars f backwards (newMethodScope emptyRegistry "") orderCalls
          = Ret ["aMirippParam"; "m"]) as Hrun2 by reflexivity.
  pose proof (eq_trans (eq_sym Hrun1) (eq_trans (f_equal (fmap names) Hsame) Hrun2)) as Hbad.
  discriminate Hbad.
Qed.

Lemma bind_assoc {A B C} (x : outcome A) (f : A → outcome B) (g : B → outcome C) :
  (x ≫= f) ≫= g = x ≫= (fun a => f a ≫= g).
Proof. by destruct x. Qed.

Lemma foldM_cons {A S} (f : S → A → outcome S) (x : A) (l : list A) (s : S) :
  foldM f (x :: l) s = f s x ≫= foldM f l.
Proof. done. Qed.

(** Renaming a variable that neither bears a name nor comes to bear it
    leaves the search for that name where it was. *)
Lemma searchVar_in_alter_other (g : Var → Var) (vs : list Var) (i : nat) (v : Var)
    (name : string) :
  vs !! i = Some v → Name v ≠ name → Name (g v) ≠ name →
  searchVar_in (alter g i vs) name = searchVar_in vs name.
Proof.
  unfold searchVar_in. revert i.
  induction vs as [|w vs IH]; intros i Hi Hv Hgv; [done|].
  destruct i as [|i]; cbn [alter list_alter list_find].
  - injection Hi as ->. by rewrite !decide_False by done.
  - cbn in Hi. destruct (decide (Name w = name)); [done|].
    rewrite <-!option_fmap_compose.
    specialize (IH i Hi Hv Hgv).
    destruct (list_find _ (alter g i vs)) as [[??]|],
      (list_find _ vs) as [[??]|]; simplify_eq/=; done.
Qed.

Lemma searchVar_in_lookup (vs : list Var) (name : string) (i : nat) :
  searchVar_in vs name = Some i → ∃ v, vs !! i = Some v ∧ Name v = name.
Proof. intros (v & ? & ? & _)%searchVar_in_Some. by exists v. Qed.

(** Two rounds of the loop of [resolveImportVarConflicts] may be swapped
    when neither qualifier is the other one with [MirippParam] behind. *)
Lemma resolveImportVarConflict_swap (vs : list Var) (p1 p2 : option Package) :
  (∀ q1 q2, Qualifier p1 = Ret q1 → Qualifier p2 = Ret q2 →
            q2 ≠ q1 +:+ "MirippParam" ∧ q1 ≠ q2 +:+ "MirippParam") →
  resolveImportVarConflict vs p1 ≫= (fun vs' => resolveImportVarConflict vs' p2)
  = resolveImportVarConflict vs p2 ≫= (fun vs' => resolveImportVarConflict vs' p1).
Proof.
  intros Hq. unfold resolveImportVarConflict.
  pose proof (Qualifier_not_Diverge p1). pose proof (Qualifier_not_Diverge p2).
  destruct (Qualifier p1) as [q1| |] eqn:H1, (Qualifier p2) as [q2| |] eqn:H2;
    try done; cbn [mbind outcome_bind].
  - destruct (Hq q1 q2 eq_refl eq_refl) as [Hne12 Hne21].
    destruct (decide (q1 = q2)) as [->|Hne]; [done|].
    destruct (searchVar_in vs q1) as [i|] eqn:Hs1,
             (searchVar_in vs q2) as [j|] eqn:Hs2; cbn [mbind outcome_bind].
    + destruct (searchVar_in_lookup _ _ _ Hs1) as (v1 & Hv1 & Hn1).
      destruct (searchVar_in_lookup _ _ _ Hs2) as (v2 & Hv2 & Hn2).
      rewrite (searchVar_in_alter_other _ vs i v1 q2), Hs2;
        [|done|congruence|cbn; congruence].
      rewrite (searchVar_in_alter_other _ vs j v2 q1), Hs1;
        [|done|congruence|cbn; congruence].
      f_equal. apply list_alter_alter_ne. congruence.
    + destruct (searchVar_in_lookup _ _ _ Hs1) as (v1 & Hv1 & Hn1).
      rewrite (searchVar_in_alter_other _ vs i v1 q2), Hs2;
        [|done|congruence|cbn; congruence].
      by rewrite Hs1.
    + destruct (searchVar_in_lookup _ _ _ Hs2) as (v2 & Hv2 & Hn2).
      rewrite Hs2.
      rewrite (searchVar_in_alter_other _ vs j v2 q1), Hs1;
        [|done|congruence|cbn; congruence].
      done.
    + by rewrite Hs1, Hs2.
  - by destruct (searchVar_in vs q1).
  - by destruct (searchVar_in vs q2).
Qed.

Lemma foldM_resolveImportVarConflict_perm (l1 l2 : list (option Package)) :
  l1 ≡ₚ l2 →
  (∀ p1 p2 q1 q2, p1 ∈ l1 → p2 ∈ l1 →
     Qualifier p1 = Ret q1 → Qualifier p2 = Ret q2 → q2 ≠ q1 +:+ "MirippParam") →
  ∀ vs, foldM resolveImportVarConflict l1 vs = foldM resolveImportVarConflict l2 vs.
Proof.
  induction 1 as [|p l1 l2 Hperm IH|p1 p2 l|l1 l2 l3 H12 IH12 H23 IH23];
    intros Hq vs.
  - done.
  - rewrite !foldM_cons. destruct (resolveImportVarConflict vs p); [|done..].
    cbn [mbind outcome_bind]. apply IH. intros ?????? . apply Hq; by apply elem_of_cons; right.
  - rewrite !foldM_cons.
    change (foldM resolveImportVarConflict (p1 :: l))
      with (fun vs' => resolveImportVarConflict vs' p1 ≫= foldM resolveImportVarConflict l).
    change (foldM resolveImportVarConflict (p2 :: l))
      with (fun vs' => resolveImportVarConflict vs' p2 ≫= foldM resolveImportVarConflict l).
    rewrite <-!bind_assoc. f_equal.
    symmetry. apply resolveImportVarConflict_swap.
    intros q1 q2 H1 H2. split.
    + apply (Hq p1 p2); [set_solver|set_solver|done|done].
    + apply (Hq p2 p1); [set_solver|set_solver|done|done].
  - rewrite IH12 by done. apply IH23.
    intros p1 p2 q1 q2 Hin1 Hin2. apply Hq; by rewrite H12.
Qed.

Lemma AddVar_range_order
    (varNameForType : types.Type_ → string)
    (enum1 enum2 : gmap string (option Package) → list (string * option Package))
    (m : MethodScope) (vr : types.Var) (suffix : string) :
  range_order enum1 → range_order enum2 →
  (∀ r imports,
     populateImports (types.VarType vr) (registry m, ∅) = Ret (r, imports) →
     unrelatedQualifiers imports) →
  AddVar varNameForType enum1 m vr suffix = AddVar varNameForType enum2 m vr suffix.
Proof.
  intros H1 H2 Hq. unfold AddVar, prepare.
  destruct (populateImports (types.VarType vr) (registry m, ∅)) as [[r imps]| |] eqn:Hwalk;
    [|done..].
  cbn [mbind outcome_bind]. unfold resolveImportVarConflicts. cbn [vars].
  rewrite (foldM_resolveImportVarConflict_perm (enum1 imps).*2 (enum2 imps).*2); [done| |].
  - apply fmap_Permutation. by rewrite (H1 imps), (H2 imps).
  - intros p1 p2 q1 q2 Hin1 Hin2.
    rewrite (H1 imps) in Hin1, Hin2.
    apply list_elem_of_fmap in Hin1 as ([k1 ?] & -> & Hk1%elem_of_map_to_list).
    apply list_elem_of_fmap in Hin2 as ([k2 ?] & -> & Hk2%elem_of_map_to_list).
    by apply (Hq r imps eq_refl k1 k2).
Qed.

(** Where the order does not matter: two runs of a sequence of [AddVar]
    calls from the same scope give the same outcome - the same names, conflicted names and
    registry - whatever the orders in which the ranges over the imports
    run, provided that in no call two packages of the variable's type
    have qualifiers of which one is the other with [MirippParam] behind. *)
Theorem AddVars_range_order
    (varNameForType : types.Type_ → string)
    (enum1 enum2 : gmap string (option Package) → list (string * option Package))
    (calls : list (types.Var * string)) (m : MethodScope) :
  range_order enum1 → range_order enum2 →
  unrelatedThroughout varNameForType enum1 m calls →
  AddVars varNameForType enum1 m calls = AddVars varNameForType enum2 m calls.
Proof.
  intros H1 H2. revert m.
  induction calls as [|call calls IH]; intros m Hq; [done|].
  destruct Hq as [Hcall Hrest]. unfold AddVars. rewrite !foldM_cons.
  rewrite <-(AddVar_range_order varNameForType enum1 enum2) by done.
  destruct (AddVar varNameForType enum1 m call.1 call.2) as [[i m']| |] eqn:Hadd;
    [|done..].
  cbn [mbind outcome_bind]. by apply IH, (Hrest i).
Qed.

Lemma unrelatedQualifiers_of_list (imports : gmap string (option Package))
    (l : list (option Package)) :
  (map_to_list imports).*2 = l →
  Forall (fun p1 => Forall (fun p2 =>
            ∀ q1 q2, Qualifier p1 = Ret q1 → Qualifier p2 = Ret q2 →
                     q2 ≠ q1 +:+ "MirippParam") l) l →
  unrelatedQualifiers imports.
Proof.
  intros <- Hall k1 k2 p1 p2 q1 q2 Hk1 Hk2.
  rewrite Forall_forall in Hall.
  assert (∀ k p, imports !! k = Some p → p ∈ (map_to_list imports).*2) as Hin.
  { intros k p Hk. apply list_elem_of_fmap. exists (k, p).
    split; [done|]. by apply elem_of_map_to_list. }
  specialize (Hall p1 (Hin _ _ Hk1)). rewrite Forall_forall in Hall.
  apply (Hall p2 (Hin _ _ Hk2)).
Qed.

Lemma handlersWalk_eq :
  populateImports handlersType (emptyRegistry, ∅) = Ret (handlersWalk.1, handlersWalk.2).
Proof. vm_compute. reflexivity. Qed.

Lemma handlersWalk_unrelated : unrelatedQualifiers handlersWalk.2.
Proof.
  eapply unrelatedQualifiers_of_list; [vm_compute; reflexivity|].
  repeat constructor; intros q1 q2 [= <-] [= <-]; discriminate.
Qed.

(** In both orders the earlier variable [context] gives way to the
    package. *)
Example AddVars_context_handlers :
  names <$> AddVars (fun _ => "x") backwards (newMethodScope emptyRegistry "")
              [(intVar "context", ""); (handlersVar, "")]
  = Ret ["contextMirippParam"; "handlers"].
Proof. reflexivity. Qed.

(** ** The command *)

Section Run.

Context {Mocker : Type}.
Context (mirip_New : World → Config → Mocker + error).
Context (mirip_Mock : World → Mocker → list string → string * option error).
Context (filepath_Dir : string → string).

Local Abbreviation run := (run Mocker mirip_New mirip_Mock filepath_Dir).
Local Abbreviation generation := (generation Mocker mirip_New mirip_Mock).

(** The removal either leaves the surroundings as they are or takes the
    output file away, and writes nothing. *)
Lemma removeOutput_cases (flags : userFlags) (w w1 : World) (o : option error) :
  removeOutput flags w = (o, w1) →
  w1 = w
  ∨ (remove flags = true ∧ outFile flags ≠ "" ∧ o = None
     ∧ is_Some (files w !! outFile flags)
     ∧ w1 = {| files := delete (outFile flags) (files w); dirs := dirs w;
               denied := denied w; stdout := stdout w;
               log := log w ++ [Removed (outFile flags)] |}).
Proof.
  unfold removeOutput, os_Remove. case_decide as Hflags; [|intros [= <- <-]; by left].
  destruct Hflags as [Hrm Hout]. case_decide.
  { cbn. intros [= <- <-]. by left. }
  destruct (files w !! outFile flags) as [old|] eqn:Hfile.
  - intros [= <- <-]. right. by split_and!.
  - cbn. intros [= <- <-]. by left.
Qed.

Lemma removeOutput_world (flags : userFlags) (w w1 : World) (o : option error) :
  removeOutput flags w = (o, w1) →
  stdout w1 = stdout w
  ∧ denied w1 = denied w
  ∧ (∀ name data, Wrote name data ∈ log w1 → Wrote name data ∈ log w)
  ∧ (∀ name, files w1 !! name = files w !! name ∨ files w1 !! name = None).
Proof.
  intros [->|(_ & _ & _ & _ & ->)]%removeOutput_cases; cbn.
  - split_and!; try done. by left.
  - split_and!; try done.
    + intros name data [?|Hin%list_elem_of_singleton]%elem_of_app; done.
    + intros name. destruct (decide (name = outFile flags)) as [->|].
      * right. apply lookup_delete_eq.
      * left. by apply lookup_delete_ne.
Qed.

Lemma run_generation_failed (flags : userFlags) (w w1 : World) (err : error) :
  (2 ≤ length (args flags))%nat →
  outFile flags ≠ "" →
  removeOutput flags w = (None, w1) →
  generation flags w1 = inl err →
  run flags w = (Some err, w1).
Proof.
  intros Hargs Hout Hrm Hgen. unfold main.run.
  rewrite decide_False by lia. rewrite Hrm.
  unfold main.generation in Hgen.
  destruct (mirip_New w1 (config flags)) as [mocker|err']; [|by injection Hgen as ->].
  destruct (mirip_Mock w1 mocker (drop 1 (args flags))) as [buf [err'|]];
    [|done]. injection Hgen as ->.
  by rewrite decide_True.
Qed.

(** C8: with an output file given, a generation that ends in an error
    ends the command with that error in the surroundings as the removal
    left them: nothing has been written or printed.  And whatever the
    command writes, it writes to the output file, after a generation
    without error, and what it writes is all that the generator wrote
    to the buffer. *)
Theorem run_writes_after_generation (flags : userFlags) (w : World) :
  outFile flags ≠ "" →
  (∀ w1 err,
     (2 ≤ length (args flags))%nat →
     removeOutput flags w = (None, w1) →
     generation flags w1 = inl err →
     run flags w = (Some err, w1)
     ∧ stdout w1 = stdout w
     ∧ (∀ name data, Wrote name data ∈ log w1 → Wrote name data ∈ log w)
     ∧ (∀ name, files w1 !! name = files w !! name ∨ files w1 !! name = None))
  ∧ (∀ name data,
       Wrote name data ∈ log (run flags w).2 →
       Wrote name data ∈ log w
       ∨ (name = outFile flags
          ∧ ∃ w1, removeOutput flags w = (None, w1)
                  ∧ generation flags w1 = inr data))
  ∧ stdout (run flags w).2 = stdout w.
Proof.
  intros Hout. split_and!.
  - intros w1 err Hargs Hrm Hgen.
    split; [by apply run_generation_failed|].
    by destruct (removeOutput_world _ _ _ _ Hrm) as (? & _ & ? & ?).
  - intros name data. unfold main.run.
    case_decide; [by left|].
    destruct (removeOutput flags w) as [[rmErr|] w1] eqn:Hrm;
      destruct (removeOutput_world _ _ _ _ Hrm) as (_ & _ & Hlog & _);
      [by left; auto|].
    destruct (mirip_New w1 (config flags)) as [mocker|err'] eqn:HNew; [|by left; auto].
    destruct (mirip_Mock w1 mocker (drop 1 (args flags))) as [buf [err'|]] eqn:HMock.
    { rewrite (decide_True (P := outFile flags ≠ "")) by done. left; auto. }
    rewrite (decide_True (P := outFile flags ≠ "")) by done.
    rewrite (decide_False (P := outFile flags = "")) by done.
    unfold os_MkdirAll, os_WriteFile. case_decide; [left; auto|].
    cbn [denied]. case_decide; cbn [snd log].
    + intros [?|Hin%list_elem_of_singleton]%elem_of_app; [left; auto|done].
    + intros [[?|Hin%list_elem_of_singleton]%elem_of_app
             |Hin%list_elem_of_singleton]%elem_of_app; [left; auto|done|].
      injection Hin as -> ->. right. split; [done|]. exists w1. split; [done|].
      unfold main.generation. by rewrite HNew, HMock.
  - unfold main.run. case_decide; [done|].
    destruct (removeOutput flags w) as [[rmErr|] w1] eqn:Hrm;
      destruct (removeOutput_world _ _ _ _ Hrm) as (Hstd & _ & _ & _); [done|].
    destruct (mirip_New w1 (config flags)) as [mocker|err']; [|done].
    destruct (mirip_Mock w1 mocker (drop 1 (args flags))) as [buf [err'|]].
    { by rewrite (decide_True (P := outFile flags ≠ "")). }
    rewrite (decide_True (P := outFile flags ≠ "")) by done.
    rewrite (decide_False (P := outFile flags = "")) by done.
    unfold os_MkdirAll, os_WriteFile. case_decide; [done|].
    cbn [denied]. by case_decide.
Qed.

(** C10: with the removal asked for, an output file given that the system
    lets go, and enough arguments, the removal ends without error,
    whether the file is there or not; the rest of [run] - the generation
    first of all - takes place in surroundings without the file; and
    when the generation ends in an error, the command ends with that
    error and the file is gone. *)
Theorem run_removes_first (flags : userFlags) (w : World) :
  remove flags = true →
  outFile flags ≠ "" →
  (2 ≤ length (args flags))%nat →
  outFile flags ∉ denied w →
  ∃ w1, removeOutput flags w = (None, w1)
        ∧ files w1 = delete (outFile flags) (files w)
        ∧ (files w !! outFile flags = None → w1 = w)
        ∧ run flags w = run (withoutRemove flags) w1
        ∧ ∀ err, generation flags w1 = inl err →
                 run flags w = (Some err, w1)
                 ∧ files (run flags w).2 !! outFile flags = None.
Proof.
  intros Hrm Hout Hargs Hden.
  assert (∃ w1, removeOutput flags w = (None, w1)
                ∧ files w1 = delete (outFile flags) (files w)
                ∧ (files w !! outFile flags = None → w1 = w))
    as (w1 & Hrem & Hfiles & Hmissing).
  { unfold removeOutput, os_Remove. rewrite decide_True by done.
    rewrite decide_False by done.
    destruct (files w !! outFile flags) as [old|] eqn:Hfile.
    - eexists. split; [done|]. split; [done|]. done.
    - cbn. exists w. split; [done|]. split; [|done].
      symmetry. by apply delete_id. }
  exists w1. split_and!; [done..| |].
  - unfold main.run at 1 2. cbn [withoutRemove args outFile].
    rewrite !decide_False by lia. rewrite Hrem.
    unfold removeOutput at 1. cbn [withoutRemove remove].
    by rewrite decide_False by (by intros [? _]).
  - intros err Hgen. rewrite (run_generation_failed flags w w1 err) by done.
    split; [done|]. cbn [snd]. rewrite Hfiles. apply lookup_delete_eq.
Qed.

End Run.

(** With a generator that works, the file holds what the generator wrote. *)
Example run_working :
  ∃ w, run unit newMocker workingMock dirOf mockFlags staleWorld = (None, w)
       ∧ files w !! "mock.go" = Some "package mock; type ServiceMock struct{}"
       ∧ log w = [Removed "mock.go"; MadeDir ".";
                  Wrote "mock.go" "package mock; type ServiceMock struct{}"].
Proof. eexists. split; [reflexivity|]. split; reflexivity. Qed.

(** The stale file is gone after the failed run. *)
Example run_failing_leaves_no_file :
  files staleWorld !! "mock.go" = Some "package stale"
  ∧ files (run unit newMocker failingMock dirOf mockFlags staleWorld).2 !! "mock.go" = None.
Proof. split; reflexivity. Qed.

(** * Further properties *)

(** ** [reverse] and [uniqueName] *)

(** X1: [reverse] turns the slice around: the result is the list in the
    opposite order, of the same length, and a second [reverse] gives the
    list back. *)
Theorem reverse_turns_around (a : list string) :
  reverse a = rev a
  ∧ length (reverse a) = length a
  ∧ reverse (reverse a) = a.
Proof.
  split_and!.
  - apply reverse_rev.
  - by rewrite reverse_rev, length_rev.
  - rewrite !reverse_rev. apply rev_involutive.
Qed.

Lemma fold_left_prepend (f : string → string) (l : list string) (acc : string) :
  fold_left (fun name c => f c +:+ name) l acc = foldr String.append acc (f <$> rev l).
Proof.
  revert acc. induction l as [|c l IH]; intros acc; [done|].
  cbn [fold_left rev]. by rewrite IH, fmap_app, foldr_app.
Qed.

Lemma uniqueName_loop_joined (segments : list string) (n : nat) :
  uniqueName_loop (rev segments) n
  = joined (sanitised <$> drop (length segments - n) segments).
Proof.
  unfold uniqueName_loop, joined.
  rewrite (fold_left_prepend sanitised).
  rewrite !rev_alt. fold (list.reverse segments).
  fold (list.reverse (take n (list.reverse segments))).
  by rewrite take_reverse, reverse_involutive.
Qed.

(** X2: at a level from 0 on, [uniqueName] is the last [lvl + 1]
    components of the path - all of them when there are fewer - each
    sanitised, joined in the order of the path.  Sanitising is the
    replacer followed by [strings.ToLower], which lowers a component of
    ASCII bytes byte by byte and any other by the case tables. *)
Theorem uniqueName_last_components (p : Package) (path : string) (lvl : Z) :
  Path (Some p) = Ret path →
  0 ≤ lvl < 2 ^ 63 - 1 →
  uniqueName p lvl
  = Ret (joined (sanitised <$>
           drop (length (strings.Split path "/") - (Z.to_nat lvl + 1))
                (strings.Split path "/"))).
Proof.
  intros Hpath Hlvl. unfold uniqueName. rewrite Hpath. cbn [mbind outcome_bind].
  rewrite reverse_rev, length_rev, uniqueName_loop_joined.
  rewrite wrap64_small by lia.
  replace (length (strings.Split path "/")
           - Z.to_nat (min (Z.of_nat (length (strings.Split path "/"))) (lvl + 1)))%nat
    with (length (strings.Split path "/") - (Z.to_nat lvl + 1))%nat; [done|].
  unfold min. case_decide; lia.
Qed.

(** A component with a letter beyond ASCII is left to the case tables as
    a whole, its ASCII letters included. *)
Example uniqueName_beyond_ASCII :
  strings.isASCII baer = false
  ∧ uniqueName atBaer 0 = Ret (strings.lowerRunes baer +:+ "").
Proof. split; reflexivity. Qed.

(** X3: below level 0, and at the greatest [int], where [lvl + 1] wraps
    around, the loop of [uniqueName] does not run: the name is empty. *)
Theorem uniqueName_no_round (p : Package) (path : string) (lvl : Z) :
  Path (Some p) = Ret path →
  - 2 ^ 63 ≤ lvl < 0 ∨ lvl = 2 ^ 63 - 1 →
  uniqueName p lvl = Ret "".
Proof.
  intros Hpath Hlvl. unfold uniqueName. rewrite Hpath. cbn [mbind outcome_bind].
  assert (wrap64 (lvl + 1) ≤ 0) as Hwrap.
  { destruct Hlvl as [Hneg| ->]; [rewrite wrap64_small; lia|by vm_compute]. }
  assert (Z.to_nat (min (Z.of_nat (length (reverse (strings.Split path "/"))))
                        (wrap64 (lvl + 1))) = 0%nat) as ->.
  { unfold min. case_decide; lia. }
  done.
Qed.

Lemma bytes_app (a b : string) : bytes (a +:+ b) = bytes a ++ bytes b.
Proof.
  induction a as [|c a IH]; [done|].
  change (c :: bytes (a +:+ b) = c :: bytes a ++ bytes b). by rewrite IH.
Qed.

Lemma lookup_replacer_new (s old new : string) :
  strings.lookup replacer s = Some (old, new) → new = "".
Proof.
  unfold replacer. cbn [strings.lookup].
  repeat (destruct (String.prefix _ s); [by intros [= <- <-]|]). done.
Qed.

Lemma prefix_empty (s : string) : String.prefix "" s = true.
Proof. by destruct s. Qed.

Lemma lookup_replacer_stripped (c : ascii) (s : string) :
  c ∈ strippedBytes → strings.lookup replacer (String c s) ≠ None.
Proof.
  unfold strippedBytes. intros Hc.
  repeat (apply elem_of_cons in Hc as [->|Hc]); [..|by apply not_elem_of_nil in Hc];
    unfold replacer; simpl; rewrite ?prefix_empty; try done;
    by destruct (String.prefix _ _).
Qed.

Lemma Replace_from_clean (s : string) :
  ∀ skip, Forall (fun c => c ∉ strippedBytes) (bytes (strings.Replace_from replacer skip s)).
Proof.
  induction s as [|c s IH]; intros skip; cbn [strings.Replace_from]; [constructor|].
  destruct skip as [|skip]; [|apply IH].
  destruct (strings.lookup replacer (String c s)) as [[old new]|] eqn:Hlook.
  - apply lookup_replacer_new in Hlook as ->. apply IH.
  - constructor; [|apply IH].
    intros Hc. by apply (lookup_replacer_stripped c s) in Hc.
Qed.

Global Instance capital_dec (c : ascii) : Decision (capital c).
Proof. unfold capital. apply _. Defined.

Lemma lower_byte_clean (c : ascii) :
  c ∉ strippedBytes →
  (strings.lower_byte c ∉ strippedBytes) ∧ ¬ capital (strings.lower_byte c).
Proof.
  destruct c as [[] [] [] [] [] [] [] []];
    apply (bool_decide_unpack _); by vm_compute.
Qed.

Lemma lowerASCII_bytes (s : string) :
  bytes (strings.lowerASCII s) = strings.lower_byte <$> bytes s.
Proof. induction s as [|c s IH]; [done|]. cbn. by f_equal. Qed.

Lemma lowerASCII_clean (s : string) :
  Forall (fun c => c ∉ strippedBytes) (bytes s) →
  Forall (fun c => (c ∉ strippedBytes) ∧ ¬ capital c) (bytes (strings.lowerASCII s)).
Proof.
  intros Hs. rewrite lowerASCII_bytes. apply Forall_fmap.
  eapply Forall_impl; [exact Hs|]. intros c Hc. by apply lower_byte_clean.
Qed.

Lemma sanitised_clean (component : string) :
  (∀ s, strings.isASCII s = false →
        Forall (fun c => c ∉ strippedBytes) (bytes s) →
        Forall (fun c => (c ∉ strippedBytes) ∧ ¬ capital c) (bytes (strings.lowerRunes s))) →
  Forall (fun c => (c ∉ strippedBytes) ∧ ¬ capital c) (bytes (sanitised component)).
Proof.
  intros Hrunes. unfold sanitised, strings.ToLower, strings.Replace.
  destruct (strings.isASCII _) eqn:Hascii.
  - apply lowerASCII_clean, Replace_from_clean.
  - apply Hrunes; [done|]. apply Replace_from_clean.
Qed.

Lemma joined_clean (P : ascii → Prop) (l : list string) :
  Forall (fun s => Forall P (bytes s)) l → Forall P (bytes (joined l)).
Proof.
  induction 1 as [|s l Hs _ IH]; [constructor|].
  unfold joined. cbn [foldr]. rewrite bytes_app. by apply Forall_app.
Qed.

(** X4: a name given by [uniqueName] holds none of the bytes [-], [_],
    [.], [@], [+], [~] and no ASCII capital.  For the components with a
    byte from 0x80 on this rests on the case tables: lowering rune by rune
    brings in none of the six bytes and leaves no ASCII capital, as the
    tables of package [unicode] have it, which map letters to letters. *)
Theorem uniqueName_clean (p : Package) (lvl : Z) (name : string) :
  (∀ s, strings.isASCII s = false →
        Forall (fun c => c ∉ strippedBytes) (bytes s) →
        Forall (fun c => (c ∉ strippedBytes) ∧ ¬ capital c) (bytes (strings.lowerRunes s))) →
  uniqueName p lvl = Ret name →
  Forall (fun c => (c ∉ strippedBytes) ∧ ¬ capital c) (bytes name).
Proof.
  intros Hrunes. unfold uniqueName. intros (path & _ & [= <-])%bind_Ret.
  rewrite reverse_rev, uniqueName_loop_joined.
  apply joined_clean, Forall_fmap, Forall_forall. intros component _.
  by apply sanitised_clean.
Qed.

(** ** The loop of [resolveVarNameConflict] *)

(** X5: the loop of [resolveVarNameConflict] ends within
    [len(m.vars) + 1] rounds: with any fuel beyond the number of
    variables it comes to the same result, and it never runs on. *)
Theorem resolveVarNameConflict_ends (m : MethodScope) (s : string) (fuel : nat) :
  Z.of_nat (length (vars m)) < 2 ^ 63 - 1 →
  (length (vars m) < fuel)%nat →
  resolveVarNameConflict_from fuel m s 1 = resolveVarNameConflict m s
  ∧ resolveVarNameConflict m s ≠ Diverge.
Proof.
  intros Hlen Hfuel.
  destruct (resolveVarNameConflict_from_least m s fuel 1)
    as (n1 & Hn1 & Hfree1 & Hbelow1 & ->); [lia|done|intros; lia|lia|].
  destruct (resolveVarNameConflict_least m s Hlen) as (n2 & Hn2 & Hfree2 & Hbelow2 & ->).
  rewrite (least_free_unique m s n1 n2) by done.
  split; [done|]. unfold resolvedAt. case_decide; [|done]. by destruct (searchVar m s).
Qed.

(** X6: [resolveVarNameConflict] dereferences nil exactly when no variable
    bears the suggested name and none bears it with [1] behind. *)
Theorem resolveVarNameConflict_panics (m : MethodScope) (s : string) :
  Z.of_nat (length (vars m)) < 2 ^ 63 - 1 →
  resolveVarNameConflict m s = Panic ↔ (s ∉ names m) ∧ (s +:+ "1" ∉ names m).
Proof.
  intros Hlen.
  destruct (resolveVarNameConflict_least m s Hlen) as (n & Hn & Hfree & Hbelow & ->).
  unfold resolvedAt. split.
  - case_decide as Hone; [|done]. subst n.
    destruct (searchVar m s) eqn:Hsearch; [done|]. intros _.
    split; [by apply searchVar_in_None|done].
  - intros [Hs Hs1].
    assert (n = 1) as ->.
    { destruct (decide (n = 1)); [done|]. destruct Hs1. apply (Hbelow 1). lia. }
    rewrite decide_True by done.
    apply searchVar_in_None in Hs. unfold searchVar. by rewrite Hs.
Qed.

(** ** [AddVar] *)

(** X7: when the name asked for is borne by a variable and its form with
    [1] is borne by none, [AddVar] renames the first bearer to the form
    with [1], marks the name as conflicted and gives the new variable the
    form with [2] - whether or not a variable bears that already. *)
Theorem AddVar_first_collision
    (varNameForType : types.Type_ → string)
    (enum : gmap string (option Package) → list (string * option Package))
    (m : MethodScope) (vr : types.Var) (suffix : string)
    (imports : gmap string (option Package)) (m1 : MethodScope) (name : string)
    (i : nat) :
  prepare varNameForType enum m vr suffix = Ret (imports, m1, name) →
  searchVar m1 name = Some i →
  name +:+ "1" ∉ names m1 →
  Z.of_nat (length (vars m1)) < 2 ^ 63 - 1 →
  AddVar varNameForType enum m vr suffix
  = Ret (length (vars m1),
         appendVar
           {| registry := registry m1; miripPkgPath := miripPkgPath m1;
              vars := alter (appendName "1") i (vars m1);
              conflicted := <[name := true]> (conflicted m1) |}
           {| vr := vr; imports := imports; pkgPath := miripPkgPath m1;
              Name := name +:+ "2" |}).
Proof.
  intros Hprep Hsearch Hone Hlen.
  unfold AddVar. rewrite Hprep. cbn [mbind outcome_bind]. unfold place.
  rewrite decide_True by (left; by rewrite Hsearch).
  destruct (resolveVarNameConflict_least m1 name Hlen) as (n & Hn & Hfree & Hbelow & ->).
  assert (n = 1) as ->.
  { destruct (decide (n = 1)); [done|]. destruct Hone. apply (Hbelow 1). lia. }
  unfold resolvedAt. rewrite decide_True by done. rewrite Hsearch.
  cbn [mbind outcome_bind vars]. by rewrite length_alter.
Qed.

(** X8: when the name asked for is marked as conflicted while no variable
    bears it and none bears its form with [1], [AddVar] dereferences
    nil. *)
Theorem AddVar_panics
    (varNameForType : types.Type_ → string)
    (enum : gmap string (option Package) → list (string * option Package))
    (m : MethodScope) (vr : types.Var) (suffix : string)
    (imports : gmap string (option Package)) (m1 : MethodScope) (name : string) :
  prepare varNameForType enum m vr suffix = Ret (imports, m1, name) →
  default false (conflicted m1 !! name) = true →
  name ∉ names m1 →
  name +:+ "1" ∉ names m1 →
  Z.of_nat (length (vars m1)) < 2 ^ 63 - 1 →
  AddVar varNameForType enum m vr suffix = Panic.
Proof.
  intros Hprep Hmark Hname Hone Hlen.
  unfold AddVar. rewrite Hprep. cbn [mbind outcome_bind]. unfold place.
  rewrite decide_True by (by right).
  destruct (resolveVarNameConflict_least m1 name Hlen) as (n & Hn & Hfree & Hbelow & ->).
  assert (n = 1) as ->.
  { destruct (decide (n = 1)); [done|]. destruct Hone. apply (Hbelow 1). lia. }
  unfold resolvedAt. rewrite decide_True by done.
  apply searchVar_in_None in Hname. unfold searchVar. by rewrite Hname.
Qed.

Lemma string_app_assoc (a b c : string) : (a +:+ b) +:+ c = a +:+ (b +:+ c).
Proof.
  induction a as [|x a IH]; [done|].
  change (String x ((a +:+ b) +:+ c) = String x (a +:+ (b +:+ c))). by rewrite IH.
Qed.

Lemma extended_refl (v : Var) : extended v v.
Proof. split_and!; try done. exists "". by rewrite string_app_empty_r. Qed.

Lemma extended_trans (u v w : Var) : extended u v → extended v w → extended u w.
Proof.
  intros (? & ? & ? & s1 & Hs1) (? & ? & ? & s2 & Hs2).
  split_and!; try congruence. exists (s1 +:+ s2).
  by rewrite Hs2, Hs1, string_app_assoc.
Qed.

Lemma extended_alter (vs : list Var) (i : nat) (suffix : string) :
  Forall2 extended vs (alter (appendName suffix) i vs).
Proof.
  apply Forall2_alter_r.
  - apply Forall_Forall2_diag, Forall_forall. intros v _. apply extended_refl.
  - intros v v' _ _ Hext. eapply extended_trans; [done|].
    split_and!; try done. by exists suffix.
Qed.

Lemma Forall2_extended_trans (us vs ws : list Var) :
  Forall2 extended us vs → Forall2 extended vs ws → Forall2 extended us ws.
Proof. apply Forall2_trans, extended_trans. Qed.

Lemma foldM_resolveImportVarConflict_extended (ps : list (option Package)) :
  ∀ vs vs', foldM resolveImportVarConflict ps vs = Ret vs' → Forall2 extended vs vs'.
Proof.
  induction ps as [|p ps IH]; intros vs vs' Hrun.
  { injection Hrun as <-. apply Forall_Forall2_diag, Forall_forall.
    intros v _. apply extended_refl. }
  rewrite foldM_cons in Hrun. apply bind_Ret in Hrun as (vs1 & Hstep & Hrest).
  eapply Forall2_extended_trans; [|by apply IH].
  unfold resolveImportVarConflict in Hstep.
  apply bind_Ret in Hstep as (q & _ & Hstep).
  destruct (searchVar_in vs q); injection Hstep as <-.
  - apply extended_alter.
  - apply Forall_Forall2_diag, Forall_forall. intros v _. apply extended_refl.
Qed.

(** What a return of the loop of [resolveVarNameConflict] leaves behind. *)
Lemma resolveVarNameConflict_from_Ret (m : MethodScope) (s : string) (fuel : nat) :
  ∀ n name m',
    resolveVarNameConflict_from fuel m s n = Ret (name, m') →
    Forall2 extended (vars m) (vars m')
    ∧ (conflicted m' = conflicted m ∨ conflicted m' = <[s := true]> (conflicted m)).
Proof.
  induction fuel as [|fuel IH]; intros n name m' Hrun; [done|].
  cbn [resolveVarNameConflict_from] in Hrun.
  destruct (searchVar m (s +:+ strconv.Itoa n)); [by eauto|].
  destruct (decide (n = 1)).
  - destruct (searchVar m s); [|done]. injection Hrun as <- <-. cbn [vars conflicted].
    split; [apply extended_alter|by right].
  - injection Hrun as <- <-. split; [|by left].
    apply Forall_Forall2_diag, Forall_forall. intros v _. apply extended_refl.
Qed.

Lemma prepare_Ret
    (varNameForType : types.Type_ → string)
    (enum : gmap string (option Package) → list (string * option Package))
    (m m1 : MethodScope) (vr : types.Var) (suffix : string)
    (imps : gmap string (option Package)) (name : string) :
  prepare varNameForType enum m vr suffix = Ret (imps, m1, name) →
  Forall2 extended (vars m) (vars m1) ∧ conflicted m1 = conflicted m
  ∧ miripPkgPath m1 = miripPkgPath m.
Proof.
  unfold prepare. intros ([r imps'] & _ & Hprep)%bind_Ret.
  apply bind_Ret in Hprep as (m2 & Hres & Hprep).
  apply bind_Ret in Hprep as (found & _ & [= <- <- <-]).
  unfold resolveImportVarConflicts in Hres.
  apply bind_Ret in Hres as (vs & Hfold & [= <-]). cbn [vars conflicted miripPkgPath] in *.
  split; [|done]. by apply foldM_resolveImportVarConflict_extended in Hfold.
Qed.

Lemma place_vars (m m' : MethodScope) (vr : types.Var)
    (imps : gmap string (option Package)) (name : string) (i : nat) :
  place m vr imps name = Ret (i, m') →
  ∃ earlier v,
    vars m' = earlier ++ [v]
    ∧ Forall2 extended (vars m) earlier
    ∧ i = length (vars m)
    ∧ registry.vr v = vr ∧ imports v = imps
    ∧ (conflicted m' = conflicted m ∨ conflicted m' = <[name := true]> (conflicted m)).
Proof.
  unfold place. intros ([name' m2] & Hres & [= <- <-])%bind_Ret.
  assert (Forall2 extended (vars m) (vars m2)
          ∧ (conflicted m2 = conflicted m
             ∨ conflicted m2 = <[name := true]> (conflicted m))) as [Hext Hconf].
  { case_decide.
    - by apply resolveVarNameConflict_from_Ret in Hres.
    - injection Hres as <- <-. split; [|by left].
      apply Forall_Forall2_diag, Forall_forall. intros v _. apply extended_refl. }
  eexists _, _. cbn [vars conflicted]. split_and!; try done.
  symmetry. by eapply Forall2_length.
Qed.

(** X9: [AddVar] appends one variable, at the index it returns, for the
    declared variable handed in.  The variables that were there stay in
    their places with their declared variable and their imports; their
    names change at most by something appended. *)
Theorem AddVar_keeps_earlier
    (varNameForType : types.Type_ → string)
    (enum : gmap string (option Package) → list (string * option Package))
    (m m' : MethodScope) (vr : types.Var) (suffix : string) (i : nat) :
  AddVar varNameForType enum m vr suffix = Ret (i, m') →
  ∃ earlier v,
    vars m' = earlier ++ [v]
    ∧ Forall2 extended (vars m) earlier
    ∧ i = length (vars m)
    ∧ registry.vr v = vr.
Proof.
  unfold AddVar. intros ([[imps m1] name] & Hprep & Hplace)%bind_Ret.
  apply prepare_Ret in Hprep as (Hext1 & _ & _).
  apply place_vars in Hplace as (earlier & v & Hvars & Hext2 & -> & Hvr & _ & _).
  exists earlier, v. split_and!; try done.
  - by eapply Forall2_extended_trans.
  - symmetry. by eapply Forall2_length.
Qed.

(** X10: a name that is marked as conflicted stays marked through
    [AddVar], and [AddVar] changes the map of conflicted names in at most
    one name, which it marks. *)
Theorem AddVar_conflicted_grows
    (varNameForType : types.Type_ → string)
    (enum : gmap string (option Package) → list (string * option Package))
    (m m' : MethodScope) (vr : types.Var) (suffix : string) (i : nat) :
  AddVar varNameForType enum m vr suffix = Ret (i, m') →
  (∀ name, conflicted m !! name = Some true → conflicted m' !! name = Some true)
  ∧ (conflicted m' = conflicted m
     ∨ ∃ name, conflicted m' = <[name := true]> (conflicted m)).
Proof.
  unfold AddVar. intros ([[imps m1] name] & Hprep & Hplace)%bind_Ret.
  apply prepare_Ret in Hprep as (_ & Hconf1 & _).
  apply place_vars in Hplace as (_ & _ & _ & _ & _ & _ & _ & [Hconf| Hconf]);
    rewrite Hconf, Hconf1.
  - split; [done|by left].
  - split; [|right; by exists name].
    intros name' Hmark. destruct (decide (name = name')) as [->|].
    + apply lookup_insert_eq.
    + by rewrite lookup_insert_ne.
Qed.

Lemma names_alter (vs : list Var) (i : nat) (suffix : string) :
  Name <$> alter (appendName suffix) i vs
  = alter (fun name => name +:+ suffix) i (Name <$> vs).
Proof. apply list_fmap_alter, Forall_forall. by intros v _. Qed.

Lemma elem_of_alter_inv (f : string → string) (l : list string) (i : nat) (x : string) :
  x ∈ alter f i l → x ∈ l ∨ ∃ y, l !! i = Some y ∧ x = f y.
Proof.
  intros (j & Hj)%list_elem_of_lookup_1.
  destruct (decide (i = j)) as [->|Hne].
  - rewrite list_lookup_alter_eq in Hj.
    destruct (l !! j) as [y|] eqn:Hy; [|done]. injection Hj as <-. right. by exists y.
  - rewrite list_lookup_alter_ne in Hj by done. left. by eapply list_elem_of_lookup_2.
Qed.

Lemma NoDup_alter_fresh (f : string → string) (l : list string) (i : nat) (y : string) :
  NoDup l → l !! i = Some y → f y ∉ l → NoDup (alter f i l).
Proof.
  intros Hnd Hy Hfresh. apply NoDup_alt. intros j k x Hj Hk.
  destruct (decide (j = k)) as [|Hjk]; [done|]. exfalso.
  destruct (decide (i = j)) as [Hij|Hij], (decide (i = k)) as [Hik|Hik];
    subst; try done.
  - rewrite list_lookup_alter_eq, Hy in Hj. injection Hj as <-.
    rewrite list_lookup_alter_ne in Hk by done.
    apply Hfresh. by eapply list_elem_of_lookup_2.
  - rewrite list_lookup_alter_eq, Hy in Hk. injection Hk as <-.
    rewrite list_lookup_alter_ne in Hj by done.
    apply Hfresh. by eapply list_elem_of_lookup_2.
  - rewrite list_lookup_alter_ne in Hj, Hk by done.
    by apply Hjk, (NoDup_lookup l j k x).
Qed.

(** X11: when the names of the scope are pairwise distinct as [AddVar]
    comes to place the new name, and the form of the name with [2] is
    free or the form with [1] is taken, the names are pairwise distinct
    after [AddVar] too. *)
Theorem AddVar_keeps_names_distinct
    (varNameForType : types.Type_ → string)
    (enum : gmap string (option Package) → list (string * option Package))
    (m m1 m' : MethodScope) (vr : types.Var) (suffix : string)
    (imports : gmap string (option Package)) (name : string) (i : nat) :
  prepare varNameForType enum m vr suffix = Ret (imports, m1, name) →
  NoDup (names m1) →
  name +:+ "1" ∈ names m1 ∨ name +:+ "2" ∉ names m1 →
  Z.of_nat (length (vars m1)) < 2 ^ 63 - 1 →
  AddVar varNameForType enum m vr suffix = Ret (i, m') →
  NoDup (names m').
Proof.
  intros Hprep Hnd Htwo Hlen. unfold AddVar. rewrite Hprep.
  cbn [mbind outcome_bind]. unfold place. case_decide as Hcoll.
  - destruct (resolveVarNameConflict_least m1 name Hlen)
      as (n & Hn & Hfree & Hbelow & ->).
    unfold resolvedAt. destruct (decide (n = 1)) as [->|Hne].
    + destruct (searchVar m1 name) as [j|] eqn:Hsearch; [|done].
      cbn [mbind outcome_bind]. intros [= <- <-].
      destruct Htwo as [Hone|Htwo]; [done|].
      apply searchVar_in_Some in Hsearch as (v & Hv & Hname & _).
      unfold names in *. cbn [vars]. rewrite fmap_app, names_alter.
      apply NoDup_app. split_and!.
      * apply (NoDup_alter_fresh _ _ _ name); [done| |done].
        by rewrite list_lookup_fmap, Hv, <-Hname.
      * intros x Hx [= ->]%list_elem_of_singleton.
        apply elem_of_alter_inv in Hx as [Hx|(y & Hy & Hx)]; [done|].
        rewrite list_lookup_fmap, Hv in Hy. injection Hy as <-.
        rewrite Hname in Hx. by apply (numbered_inj name 2 1) in Hx.
      * apply NoDup_singleton.
    + cbn [mbind outcome_bind]. intros [= <- <-].
      unfold names in *. cbn [vars]. rewrite fmap_app. apply NoDup_app.
      split_and!; [done| |apply NoDup_singleton].
      by intros x Hx [= ->]%list_elem_of_singleton.
  - cbn [mbind outcome_bind]. intros [= <- <-].
    unfold names in *. cbn [vars]. rewrite fmap_app. apply NoDup_app.
    split_and!; [done| |apply NoDup_singleton].
    intros x Hx [= ->]%list_elem_of_singleton. apply Hcoll. left.
    by apply searchVar_in_is_Some.
Qed.

(** ** [resolveImportVarConflicts] *)

Lemma string_app_ne (s t : string) : t ≠ "" → s +:+ t ≠ s.
Proof.
  intros Ht H. apply Ht, (inj (String.app s)). by rewrite H, string_app_empty_r.
Qed.

Lemma Qualifier_functional (p : option Package) (q1 q2 : string) :
  Qualifier p = Ret q1 → Qualifier p = Ret q2 → q1 = q2.
Proof. congruence. Qed.

Lemma foldM_resolveImportVarConflict_frees (ps : list (option Package)) :
  ∀ (vs vs' : list Var) (done : list string),
    (∀ d, d ∈ done → d ∉ Name <$> vs) →
    (∀ p q i j, p ∈ ps → Qualifier p = Ret q →
       (Name <$> vs) !! i = Some q → (Name <$> vs) !! j = Some q → i = j) →
    (∀ p q d, p ∈ ps → Qualifier p = Ret q → d ∈ done → d ≠ q +:+ "MirippParam") →
    (∀ p1 p2 q1 q2, p1 ∈ ps → p2 ∈ ps →
       Qualifier p1 = Ret q1 → Qualifier p2 = Ret q2 → q2 ≠ q1 +:+ "MirippParam") →
    foldM resolveImportVarConflict ps vs = Ret vs' →
    (∀ d, d ∈ done → d ∉ Name <$> vs')
    ∧ (∀ p q, p ∈ ps → Qualifier p = Ret q → q ∉ Name <$> vs').
Proof.
  induction ps as [|p0 ps IH]; intros vs vs' done Hdone Hone Hdq Hpair Hrun.
  { injection Hrun as <-. split; [done|]. intros p q Hp. by apply not_elem_of_nil in Hp. }
  rewrite foldM_cons in Hrun. apply bind_Ret in Hrun as (vs1 & Hstep & Hrest).
  unfold resolveImportVarConflict in Hstep.
  apply bind_Ret in Hstep as (q0 & Hq0 & Hstep).
  assert (∀ p q d, p ∈ ps → Qualifier p = Ret q → d ∈ q0 :: done →
                   d ≠ q +:+ "MirippParam") as Hdq'.
  { intros p q d Hp Hq [->|Hd]%elem_of_cons.
    - apply (Hpair p p0 q q0); [by right|by left|done..].
    - apply (Hdq p q d); [by right|done..]. }
  assert (∀ p1 p2 q1 q2, p1 ∈ ps → p2 ∈ ps →
            Qualifier p1 = Ret q1 → Qualifier p2 = Ret q2 →
            q2 ≠ q1 +:+ "MirippParam") as Hpair'.
  { intros p1 p2 q1 q2 H1 H2. apply Hpair; by right. }
  assert ((∀ d, d ∈ q0 :: done → d ∉ Name <$> vs')
          ∧ (∀ p q, p ∈ ps → Qualifier p = Ret q → q ∉ Name <$> vs')) as [Hd' Hps'].
  { apply (IH vs1 vs' (q0 :: done)); [| |done|done|done].
    - (* the names done with are borne by no variable *)
      destruct (searchVar_in vs q0) as [i|] eqn:Hsearch; injection Hstep as <-.
      + apply searchVar_in_lookup in Hsearch as (v & Hv & Hname).
        assert ((Name <$> vs) !! i = Some q0) as Hi
          by (by rewrite list_lookup_fmap, Hv, <-Hname).
        rewrite names_alter. intros d Hd Hin.
        apply list_elem_of_lookup_1 in Hin as (j & Hj).
        destruct (decide (i = j)) as [<-|Hij].
        * rewrite list_lookup_alter_eq, Hi in Hj. injection Hj as <-.
          apply elem_of_cons in Hd as [Hd|Hd].
          -- by apply (string_app_ne q0 "MirippParam") in Hd.
          -- by apply (Hdq p0 q0 (q0 +:+ "MirippParam")); [left|..].
        * rewrite list_lookup_alter_ne in Hj by done.
          apply elem_of_cons in Hd as [->|Hd].
          -- apply Hij. apply (Hone p0 q0 i j); [by left|done..].
          -- apply (Hdone d Hd). by eapply list_elem_of_lookup_2.
      + apply searchVar_in_None in Hsearch.
        intros d [->|Hd]%elem_of_cons; [done|by apply Hdone].
    - (* a qualifier still to come is borne by one variable at most *)
      intros p q a b Hp Hq Ha Hb.
      destruct (searchVar_in vs q0) as [i|] eqn:Hsearch; injection Hstep as <-;
        [|apply (Hone p q a b); by try right].
      apply searchVar_in_lookup in Hsearch as (v & Hv & Hname).
      assert ((Name <$> vs) !! i = Some q0) as Hi
        by (by rewrite list_lookup_fmap, Hv, <-Hname).
      rewrite names_alter in Ha, Hb.
      assert (∀ c, alter (fun name => name +:+ "MirippParam") i (Name <$> vs) !! c = Some q →
                   (Name <$> vs) !! c = Some q) as Hold.
      { intros c Hc. destruct (decide (i = c)) as [<-|Hic].
        - rewrite list_lookup_alter_eq, Hi in Hc. injection Hc as Hc.
          exfalso. apply (Hpair p0 p q0 q); [by left|by right|done|done|done].
        - by rewrite list_lookup_alter_ne in Hc. }
      apply (Hone p q a b); [by right|done|by apply Hold|by apply Hold]. }
  split.
  - intros d Hd. apply Hd'. by right.
  - intros p q [->|Hp]%elem_of_cons Hq.
    + rewrite (Qualifier_functional _ _ _ Hq Hq0). apply Hd'. by left.
    + by apply (Hps' p q).
Qed.

(** X12: when the names of the scope are pairwise distinct and no
    qualifier of the imports is another one of them with [MirippParam]
    behind, no variable bears the qualifier of an import after
    [resolveImportVarConflicts], in whatever order the range runs. *)
Theorem resolveImportVarConflicts_frees
    (m m' : MethodScope) (order : list (string * option Package)) :
  NoDup (names m) →
  (∀ p1 p2 q1 q2, p1 ∈ order.*2 → p2 ∈ order.*2 →
     Qualifier p1 = Ret q1 → Qualifier p2 = Ret q2 → q2 ≠ q1 +:+ "MirippParam") →
  resolveImportVarConflicts m order = Ret m' →
  ∀ p q, p ∈ order.*2 → Qualifier p = Ret q → q ∉ names m'.
Proof.
  intros Hnd Hpair Hrun. unfold resolveImportVarConflicts in Hrun.
  apply bind_Ret in Hrun as (vs & Hfold & [= <-]). unfold names. cbn [vars].
  apply (foldM_resolveImportVarConflict_frees _ (vars m) vs []) in Hfold as [_ Hfree];
    [done| | | |done].
  - intros d Hd. by apply not_elem_of_nil in Hd.
  - intros p q i j _ _ Hi Hj. by apply (NoDup_lookup _ i j q Hnd).
  - intros p q d _ _ Hd. by apply not_elem_of_nil in Hd.
Qed.

(** ** [populateImports] *)

Lemma foldM_populateImports_id (l : list types.Type_) :
  Forall (fun t => (∀ tp, ¬ owns t tp) → ∀ st, populateImports t st = Ret st) l →
  (∀ t tp, t ∈ l → ¬ owns t tp) →
  ∀ st, foldM (fun st t' => populateImports t' st) l st = Ret st.
Proof.
  induction 1 as [|t l Ht _ IH]; intros Hnone st; [done|].
  rewrite foldM_cons, Ht by (intros tp; apply Hnone; by left).
  cbn [mbind outcome_bind]. apply IH. intros t' tp Hin. apply Hnone. by right.
Qed.

(** X13: a type in which no named type with a package is met - the basic
    types, the named types of the universe such as [error], and whatever
    is built from them; the type arguments of a named type do not count -
    leaves the registry and the imports as they are, and the walk
    returns. *)
Theorem populateImports_without_packages (t : types.Type_) :
  (∀ tp, ¬ owns t tp) →
  ∀ st, populateImports t st = Ret st.
Proof.
  induction t as
    [name|pkg name targs|elem IH|len elem IH|elem IH|key elem IHk IHe|elem IH
    |fields IH|ms es IHm IHe|ps rs IHp IHr|descr] using Type_ind_nested;
    intros Hnone st; cbn [populateImports]; try done.
  - destruct pkg as [tp|]; [|done]. destruct (Hnone tp). constructor.
  - apply IH. intros tp Howns. apply (Hnone tp). by constructor.
  - apply IH. intros tp Howns. apply (Hnone tp). by constructor.
  - apply IH. intros tp Howns. apply (Hnone tp). by constructor.
  - rewrite IHk by (intros tp Howns; apply (Hnone tp); by apply owns_Map_key).
    cbn [mbind outcome_bind].
    apply IHe. intros tp Howns. apply (Hnone tp). by apply owns_Map_elem.
  - apply IH. intros tp Howns. apply (Hnone tp). by constructor.
  - apply foldM_populateImports_id; [done|].
    intros t tp Hin Howns. apply (Hnone tp). by eapply owns_Struct.
  - rewrite foldM_populateImports_id; [|done|].
    + cbn [mbind outcome_bind]. apply foldM_populateImports_id; [done|].
      intros t tp Hin Howns. apply (Hnone tp). by eapply owns_Interface_embedded.
    + intros t tp Hin Howns. apply (Hnone tp). by eapply owns_Interface_method.
  - rewrite foldM_populateImports_id; [|done|].
    + cbn [mbind outcome_bind]. apply foldM_populateImports_id; [done|].
      intros t tp Hin Howns. apply (Hnone tp). by eapply owns_Signature_result.
    + intros t tp Hin Howns. apply (Hnone tp). by eapply owns_Signature_param.
Qed.

Lemma foldM_populateImports_frame (path : string) (l : list types.Type_) :
  Forall (fun t => (∀ tp, owns t tp → path ≠ stripVendorPath (types.Path tp)) →
                   ∀ st st', populateImports t st = Ret st' →
                             st'.2 !! path = st.2 !! path) l →
  (∀ t tp, t ∈ l → owns t tp → path ≠ stripVendorPath (types.Path tp)) →
  ∀ st st', foldM (fun st t' => populateImports t' st) l st = Ret st' →
            st'.2 !! path = st.2 !! path.
Proof.
  induction 1 as [|t l Ht _ IH]; intros Hother st st' Hrun.
  { by injection Hrun as <-. }
  rewrite foldM_cons in Hrun. apply bind_Ret in Hrun as (st1 & Hstep & Hrest).
  rewrite (IH (fun t' tp Hin => Hother t' tp (list_elem_of_further _ _ _ Hin)) _ _ Hrest).
  apply (Ht (fun tp => Hother t tp (list_elem_of_here _ _)) _ _ Hstep).
Qed.

(** X14: the walk over a type changes the map of imports only under the
    paths, without vendor prefix, of the packages that own a named type
    met in it: every other key has the entry it had. *)
Theorem populateImports_frame (t : types.Type_) (path : string) :
  (∀ tp, owns t tp → path ≠ stripVendorPath (types.Path tp)) →
  ∀ st st', populateImports t st = Ret st' → st'.2 !! path = st.2 !! path.
Proof.
  induction t as
    [name|pkg name targs|elem IH|len elem IH|elem IH|key elem IHk IHe|elem IH
    |fields IH|ms es IHm IHe|ps rs IHp IHr|descr] using Type_ind_nested;
    intros Hother st st' Hrun; cbn [populateImports] in Hrun.
  - by injection Hrun as <-.
  - destruct pkg as [tp0|]; [|by injection Hrun as <-].
    apply bind_Ret in Hrun as ([r p] & _ & [= <-]). cbn [snd].
    apply lookup_insert_ne. intros Heq. apply (Hother tp0); [constructor|done].
  - apply (IH (fun tp H => Hother tp (owns_Pointer _ _ H)) _ _ Hrun).
  - apply (IH (fun tp H => Hother tp (owns_Array _ _ _ H)) _ _ Hrun).
  - apply (IH (fun tp H => Hother tp (owns_Slice _ _ H)) _ _ Hrun).
  - apply bind_Ret in Hrun as (st1 & Hkey & Helem).
    rewrite (IHe (fun tp H => Hother tp (owns_Map_elem _ _ _ H)) _ _ Helem).
    apply (IHk (fun tp H => Hother tp (owns_Map_key _ _ _ H)) _ _ Hkey).
  - apply (IH (fun tp H => Hother tp (owns_Chan _ _ H)) _ _ Hrun).
  - apply (foldM_populateImports_frame path fields IH); [|done].
    intros t tp Hin Howns. apply Hother. by eapply owns_Struct.
  - apply bind_Ret in Hrun as (st1 & Hms & Hes).
    rewrite (foldM_populateImports_frame path es IHe) with (st := st1); [| |done].
    + apply (foldM_populateImports_frame path ms IHm); [|done].
      intros t tp Hin Howns. apply Hother. by eapply owns_Interface_method.
    + intros t tp Hin Howns. apply Hother. by eapply owns_Interface_embedded.
  - apply bind_Ret in Hrun as (st1 & Hps & Hrs).
    rewrite (foldM_populateImports_frame path rs IHr) with (st := st1); [| |done].
    + apply (foldM_populateImports_frame path ps IHp); [|done].
      intros t tp Hin Howns. apply Hother. by eapply owns_Signature_param.
    + intros t tp Hin Howns. apply Hother. by eapply owns_Signature_result.
  - by injection Hrun as <-.
Qed.

(** ** [varName] *)

(** X15: for a variable without a name of its own, [varName] gives the
    name made up for the type with the suffix behind, and [MiripParam]
    behind that when it is one of the reserved names; what it gives is
    never one of the reserved names. *)
Theorem varName_unnamed
    (varNameForType : types.Type_ → string) (vr : types.Var) (suffix : string) :
  types.VarName vr = "" ∨ types.VarName vr = "_" →
  (varName varNameForType vr suffix ∉ reservedNames)
  ∧ (varNameForType (types.VarType vr) +:+ suffix ∉ reservedNames →
     varName varNameForType vr suffix = varNameForType (types.VarType vr) +:+ suffix)
  ∧ (varNameForType (types.VarType vr) +:+ suffix ∈ reservedNames →
     varName varNameForType vr suffix
     = (varNameForType (types.VarType vr) +:+ suffix) +:+ "MiripParam").
Proof.
  intros Hblank. split; [by apply varName_made_up_not_reserved|].
  unfold varName. rewrite decide_False by (intros [??]; destruct Hblank; done).
  cbv zeta. split; intros Hbase; [by rewrite decide_False|by rewrite decide_True].
Qed.

(** ** [run] *)

Section RunFurther.

Context {Mocker : Type}.
Context (mirip_New : World → Config → Mocker + error).
Context (mirip_Mock : World → Mocker → list string → string * option error).
Context (filepath_Dir : string → string).

Local Abbreviation run := (run Mocker mirip_New mirip_Mock filepath_Dir).
Local Abbreviation generation := (generation Mocker mirip_New mirip_Mock).

(** X16: without an output file, [run] leaves files and directories as
    they are, whatever the flags; and what the generator has written when
    [Mock] returns goes to the standard output, also when [Mock] returns
    an error, which [run] hands on. *)
Theorem run_to_stdout (flags : userFlags) (w : World) :
  outFile flags = "" →
  files (run flags w).2 = files w
  ∧ dirs (run flags w).2 = dirs w
  ∧ ∀ mocker buf err,
      (2 ≤ length (args flags))%nat →
      mirip_New w (config flags) = inl mocker →
      mirip_Mock w mocker (drop 1 (args flags)) = (buf, err) →
      run flags w = (err, print buf w).
Proof.
  intros Hout.
  assert (removeOutput flags w = (None, w)) as Hrm.
  { unfold removeOutput. by rewrite decide_False by (by intros [_ ?]). }
  split_and!.
  - unfold main.run. case_decide; [done|]. rewrite Hrm.
    destruct (mirip_New w (config flags)) as [mocker|e]; [|done].
    destruct (mirip_Mock w mocker (drop 1 (args flags))) as [buf [e|]].
    + by rewrite (decide_False (P := outFile flags ≠ "")) by (by intros ?).
    + rewrite (decide_False (P := outFile flags ≠ "")) by (by intros ?).
      by rewrite (decide_True (P := outFile flags = "")).
  - unfold main.run. case_decide; [done|]. rewrite Hrm.
    destruct (mirip_New w (config flags)) as [mocker|e]; [|done].
    destruct (mirip_Mock w mocker (drop 1 (args flags))) as [buf [e|]].
    + by rewrite (decide_False (P := outFile flags ≠ "")) by (by intros ?).
    + rewrite (decide_False (P := outFile flags ≠ "")) by (by intros ?).
      by rewrite (decide_True (P := outFile flags = "")).
  - intros mocker buf err Hargs HNew HMock. unfold main.run.
    rewrite decide_False by lia. rewrite Hrm, HNew, HMock.
    rewrite (decide_False (P := outFile flags ≠ "")) by (by intros ?).
    destruct err; [done|]. by rewrite (decide_True (P := outFile flags = "")).
Qed.

(** X17: with an output file, a generation without error, and a system
    that allows the directory and the file, [run] ends without error and
    the output file holds exactly what the generator has written; the
    other files are as the removal left them and nothing is printed.
    When the system refuses the directory, [run] ends with an error and
    writes no file. *)
Theorem run_writes_output (flags : userFlags) (w w1 : World) (buf : string) :
  outFile flags ≠ "" →
  (2 ≤ length (args flags))%nat →
  removeOutput flags w = (None, w1) →
  generation flags w1 = inr buf →
  (filepath_Dir (outFile flags) ∉ denied w1 → outFile flags ∉ denied w1 →
     ∃ w2, run flags w = (None, w2)
           ∧ files w2 = <[outFile flags := buf]> (files w1)
           ∧ stdout w2 = stdout w)
  ∧ (filepath_Dir (outFile flags) ∈ denied w1 →
     ∃ err, run flags w = (Some err, w1)).
Proof.
  intros Hout Hargs Hrm Hgen.
  destruct (removeOutput_world _ _ _ _ Hrm) as (Hstd & _ & _ & _).
  unfold main.generation in Hgen.
  destruct (mirip_New w1 (config flags)) as [mocker|e] eqn:HNew; [|done].
  destruct (mirip_Mock w1 mocker (drop 1 (args flags))) as [buf' [e|]] eqn:HMock;
    [done|]. injection Hgen as ->.
  split.
  - intros Hdir Hfile. unfold main.run.
    rewrite decide_False by lia. rewrite Hrm, HNew, HMock.
    rewrite (decide_True (P := outFile flags ≠ "")) by done.
    rewrite (decide_False (P := outFile flags = "")) by done.
    unfold os_MkdirAll, os_WriteFile. rewrite decide_False by done.
    cbn [denied]. rewrite decide_False by done.
    eexists. split; [done|]. by cbn [files stdout].
  - intros Hdir. unfold main.run.
    rewrite decide_False by lia. rewrite Hrm, HNew, HMock.
    rewrite (decide_True (P := outFile flags ≠ "")) by done.
    rewrite (decide_False (P := outFile flags = "")) by done.
    unfold os_MkdirAll. rewrite decide_True by done. by eexists.
Qed.

End RunFurther.

(** ** About the inputs of the instances *)

Lemma unrelatedQualifiers_range (imports : gmap string (option Package)) :
  unrelatedQualifiers imports →
  ∀ p1 p2 q1 q2,
    p1 ∈ (map_to_list imports).*2 → p2 ∈ (map_to_list imports).*2 →
    Qualifier p1 = Ret q1 → Qualifier p2 = Ret q2 → q2 ≠ q1 +:+ "MirippParam".
Proof.
  intros Hq p1 p2 q1 q2 Hin1 Hin2.
  apply list_elem_of_fmap in Hin1 as ([k1 ?] & -> & Hk1%elem_of_map_to_list).
  apply list_elem_of_fmap in Hin2 as ([k2 ?] & -> & Hk2%elem_of_map_to_list).
  by apply (Hq k1 k2).
Qed.

(** The two variables have given way to the packages. *)
Example clearedScope_names :
  names clearedScope = ["contextMirippParam"; "httpMirippParam"].
Proof. reflexivity. Qed.

Lemma plainType_owned_by_none : ∀ tp, ¬ owns plainType tp.
Proof.
  intros tp Howns. unfold plainType in Howns.
  inversion Howns as [| | | | | | | | | |ps rs t tp' Hin Ht|ps rs t tp' Hin Ht]; subst.
  - apply elem_of_cons in Hin as [->|Hin]; [inversion Ht|].
    apply elem_of_cons in Hin as [->|Hin]; [inversion Ht|].
    by apply not_elem_of_nil in Hin.
  - apply elem_of_cons in Hin as [->|Hin]; [|by apply not_elem_of_nil in Hin].
    inversion Ht as [| | |elem tp' He| | | | | | | |]; subst. inversion He.
Qed.

Lemma handlersType_owners (tp : types.Package) :
  owns handlersType tp → tp = contextPkg ∨ tp = httpPkg ∨ tp = ioPkg.
Proof.
  unfold handlersType. intros Howns.
  inversion Howns as [| | | |key elem tp' Hk|key elem tp' He| | | | | |]; subst.
  { inversion Hk; subst. by left. }
  inversion He as [|elem tp' Hs| | | | | | | | | |]; subst.
  inversion Hs as [| | | | | | |fields t tp' Hin Ht| | | |]; subst.
  apply elem_of_cons in Hin as [->|Hin].
  { inversion Ht as [| | |elem tp' Hn| | | | | | | |]; subst. inversion Hn; subst.
    right. by left. }
  apply elem_of_cons in Hin as [->|Hin]; [|by apply not_elem_of_nil in Hin].
  inversion Ht as [| | | | | | | | | |ps rs t tp' Hin' Ht'|ps rs t tp' Hin' Ht'];
    subst.
  - apply elem_of_cons in Hin' as [->|Hin']; [|by apply not_elem_of_nil in Hin'].
    inversion Ht'; subst. right. by right.
  - apply elem_of_cons in Hin' as [->|Hin']; [|by apply not_elem_of_nil in Hin'].
    inversion Ht'.
Qed.

(** An unnamed [string] whose made-up name is [string] becomes
    [stringMiripParam]. *)
Example varName_string :
  varName (fun _ => "string") (stringVar "_") "" = "stringMiripParam".
Proof. reflexivity. Qed.

(** The first line of the failing generator is on the standard output,
    and the stale file is still there. *)
Example run_to_stdout_partial :
  run unit newMocker failingMock dirOf stdoutFlags staleWorld
  = (Some noInterface, print "package mock" staleWorld).
Proof. reflexivity. Qed.

(** ** More on [AddVar] *)

(** X18: when no variable bears the name asked for and the name is not
    marked as conflicted, [AddVar] gives the new variable that name and
    leaves names and marks as they are. *)
Theorem AddVar_free_name
    (varNameForType : types.Type_ → string)
    (enum : gmap string (option Package) → list (string * option Package))
    (m : MethodScope) (vr : types.Var) (suffix : string)
    (imports : gmap string (option Package)) (m1 : MethodScope) (name : string) :
  prepare varNameForType enum m vr suffix = Ret (imports, m1, name) →
  name ∉ names m1 →
  default false (conflicted m1 !! name) = false →
  AddVar varNameForType enum m vr suffix
  = Ret (length (vars m1),
         appendVar m1 {| vr := vr; imports := imports;
                         pkgPath := miripPkgPath m1; Name := name |}).
Proof.
  intros Hprep Hfree Hmark. unfold AddVar. rewrite Hprep.
  cbn [mbind outcome_bind]. by apply place_free.
Qed.

Lemma AddVar_vars
    (varNameForType : types.Type_ → string)
    (enum : gmap string (option Package) → list (string * option Package))
    (m m' : MethodScope) (vr : types.Var) (suffix : string) (i : nat) :
  AddVar varNameForType enum m vr suffix = Ret (i, m') →
  ∃ earlier v, vars m' = earlier ++ [v]
               ∧ Forall2 extended (vars m) earlier ∧ registry.vr v = vr.
Proof.
  unfold AddVar. intros ([[imps m1] name] & Hprep & Hplace)%bind_Ret.
  apply prepare_Ret in Hprep as (Hext1 & _ & _).
  apply place_vars in Hplace as (earlier & v & Hvars & Hext2 & _ & Hvr & _ & _).
  exists earlier, v. split_and!; try done. by eapply Forall2_extended_trans.
Qed.

(** X19: a sequence of [AddVar] calls leaves the variables that were
    there in their places, their names changed at most by something
    appended, and adds behind them one variable for each call, in the
    order of the calls, each for the declared variable of its call. *)
Theorem AddVars_one_per_call
    (varNameForType : types.Type_ → string)
    (enum : gmap string (option Package) → list (string * option Package))
    (calls : list (types.Var * string)) :
  ∀ m m',
    AddVars varNameForType enum m calls = Ret m' →
    ∃ earlier added,
      vars m' = earlier ++ added
      ∧ Forall2 extended (vars m) earlier
      ∧ Forall2 (fun call v => registry.vr v = call.1) calls added.
Proof.
  induction calls as [|call calls IH]; intros m m' Hrun.
  { injection Hrun as <-. exists (vars m), []. rewrite app_nil_r.
    split_and!; [done| |constructor].
    apply Forall_Forall2_diag, Forall_forall. intros v _. apply extended_refl. }
  unfold AddVars in Hrun. rewrite foldM_cons in Hrun.
  apply bind_Ret in Hrun as (m1 & Hadd & Hrest).
  apply bind_Ret in Hadd as ([i m1'] & Hadd & [= ->]).
  apply AddVar_vars in Hadd as (e1 & v1 & Hvars1 & Hext1 & Hvr1).
  apply IH in Hrest as (e' & added & Hvars' & Hext' & Hadded).
  rewrite Hvars1 in Hext'.
  apply Forall2_app_inv_l in Hext' as (e1' & last & He1 & Hlast & ->).
  apply Forall2_cons_inv_l in Hlast as (v1' & rest & Hv1 & Hnil & ->).
  apply Forall2_nil_inv_l in Hnil as ->.
  exists e1', (v1' :: added). split_and!.
  - by rewrite Hvars', <-app_assoc.
  - by eapply Forall2_extended_trans.
  - constructor; [|done]. destruct Hv1 as (Hvr & _). by rewrite Hvr.
Qed.

(** ** Levels that tell two packages apart *)

Lemma string_length_app (a b : string) :
  String.length (a +:+ b) = (String.length a + String.length b)%nat.
Proof.
  induction a as [|c a IH]; [done|].
  change (S (String.length (a +:+ b)) = S (String.length a + String.length b)).
  by rewrite IH.
Qed.

Lemma string_app_inj_l (a s1 s2 : string) : s1 +:+ a = s2 +:+ a → s1 = s2.
Proof.
  revert s2. induction s1 as [|c s1 IH]; intros [|d s2] Heq; [done| | |].
  - apply (f_equal String.length) in Heq.
    rewrite !string_length_app in Heq. cbn [String.length] in Heq. lia.
  - apply (f_equal String.length) in Heq.
    rewrite !string_length_app in Heq. cbn [String.length] in Heq. lia.
  - change (String c (s1 +:+ a) = String d (s2 +:+ a)) in Heq.
    injection Heq as -> Heq. by rewrite (IH s2).
Qed.

Lemma joined_snoc (l : list string) (a : string) : joined (l ++ [a]) = joined l +:+ a.
Proof.
  unfold joined. induction l as [|x l IH]; cbn [foldr app].
  - by rewrite string_app_empty_r.
  - by rewrite IH, string_app_assoc.
Qed.

(** Two lists of strings of the same length that differ have ends of the
    same length that are different when joined. *)
Lemma joined_ends_differ (l1 : list string) :
  ∀ l2, length l1 = length l2 → l1 ≠ l2 →
        ∃ k, (k < length l1)%nat
             ∧ joined (drop (length l1 - (k + 1)) l1)
               ≠ joined (drop (length l2 - (k + 1)) l2).
Proof.
  induction l1 as [|a l1 IH] using rev_ind; intros l2 Hlen Hne.
  { destruct l2; [done|]. simpl in Hlen. lia. }
  destruct l2 as [|b l2 _] using rev_ind.
  { rewrite length_app in Hlen. simpl in Hlen. lia. }
  rewrite !length_app in Hlen. cbn [length] in Hlen.
  assert (length l1 = length l2) as Hlen' by lia.
  destruct (decide (a = b)) as [->|Hab].
  - destruct (IH l2 Hlen') as (k & Hk & Hjoin).
    { intros ->. by apply Hne. }
    exists (S k). rewrite !length_app. cbn [length]. split; [lia|].
    rewrite !drop_app_le by lia.
    replace (length l1 + 1 - (S k + 1))%nat with (length l1 - (k + 1))%nat by lia.
    replace (length l2 + 1 - (S k + 1))%nat with (length l2 - (k + 1))%nat by lia.
    rewrite !joined_snoc. intros Heq. by apply Hjoin, (string_app_inj_l b).
  - exists 0%nat. rewrite !length_app. cbn [length]. split; [lia|].
    replace (length l1 + 1 - (0 + 1))%nat with (length l1 + 0)%nat by lia.
    replace (length l2 + 1 - (0 + 1))%nat with (length l2 + 0)%nat by lia.
    rewrite !drop_app_add. cbn [drop].
    unfold joined. cbn [foldr]. by rewrite !string_app_empty_r.
Qed.

(** X20: two packages whose paths have the same number of components and
    differ in a component after sanitising - after the replacer and
    [strings.ToLower] with the case tables at hand - have a level, below
    the number of components, at which [uniqueName] gives different
    names. *)
Theorem uniqueName_tells_apart (p1 p2 : Package) (path1 path2 : string) :
  Path (Some p1) = Ret path1 →
  Path (Some p2) = Ret path2 →
  length (strings.Split path1 "/") = length (strings.Split path2 "/") →
  Z.of_nat (length (strings.Split path1 "/")) < 2 ^ 63 - 1 →
  sanitised <$> strings.Split path1 "/" ≠ sanitised <$> strings.Split path2 "/" →
  ∃ lvl, 0 ≤ lvl < Z.of_nat (length (strings.Split path1 "/"))
         ∧ uniqueName p1 lvl ≠ uniqueName p2 lvl.
Proof.
  intros Hpath1 Hpath2 Hlen Hbound Hne.
  destruct (joined_ends_differ (sanitised <$> strings.Split path1 "/")
              (sanitised <$> strings.Split path2 "/")) as (k & Hk & Hjoin);
    [by rewrite !length_fmap|done|].
  rewrite length_fmap in Hk. rewrite !length_fmap, <-!fmap_drop in Hjoin.
  exists (Z.of_nat k). split; [lia|].
  unfold uniqueName. rewrite Hpath1, Hpath2. cbn [mbind outcome_bind].
  rewrite !reverse_rev, !length_rev, !uniqueName_loop_joined.
  rewrite wrap64_small by lia. rewrite <-Hlen.
  replace (Z.to_nat (min (Z.of_nat (length (strings.Split path1 "/")))
                       (Z.of_nat k + 1))) with (k + 1)%nat
    by (unfold min; case_decide; lia).
  rewrite Hlen at 2. intros [= Heq]. by apply Hjoin.
Qed.

End AnyCaseTables.

(** * Instances

    Each property above that has a premise, at an input that meets it. *)

Section Instances.

#[local] Existing Instance bytewise.

Lemma Qualifier_cases_witness :
  Qualifier None = Ret ""%string
  ∧ Qualifier (Some {| pkg := pkg bar; Alias := "b" |}) = Ret "b"%string
  ∧ Qualifier (Some bar) = Ret "bar"%string.
Proof.
  destruct Qualifier_cases as (H0 & H1 & H2).
  split; [exact H0|split].
  - apply (H1 {| pkg := pkg bar; Alias := "b" |}). discriminate.
  - apply (H2 bar {| types.Name := "bar"; types.Path := "github.com/foo/bar" |});
      reflexivity.
Defined.

Lemma AddVar_numbered_from_two_witness :
  ∃ n, 2 ≤ n
       ∧ searchVar (scopeOf emptyRegistry ["v"; "v1"]) ("v" +:+ strconv.Itoa n) = None
       ∧ (∀ k, 2 ≤ k < n →
            is_Some (searchVar (scopeOf emptyRegistry ["v"; "v1"]) ("v" +:+ strconv.Itoa k)))
       ∧ AddVar (fun _ => "x") map_to_list (scopeOf emptyRegistry ["v"; "v1"]) (intVar "v") ""
         = Ret (length (vars (scopeOf emptyRegistry ["v"; "v1"])),
                appendVar (scopeOf emptyRegistry ["v"; "v1"])
                  {| vr := intVar "v"; imports := ∅;
                     pkgPath := miripPkgPath (scopeOf emptyRegistry ["v"; "v1"]);
                     Name := "v" +:+ strconv.Itoa n |}).
Proof.
  apply (AddVar_numbered_from_two (fun _ => "x") map_to_list
           (scopeOf emptyRegistry ["v"; "v1"]) (intVar "v") "" ∅
           (scopeOf emptyRegistry ["v"; "v1"]) "v").
  - reflexivity.
  - by eexists.
  - by eexists.
  - vm_compute. reflexivity.
Defined.

Lemma AddVars_same_name_numbered_witness :
  ∃ m1 m',
    AddVars (fun _ => "x") map_to_list (newMethodScope emptyRegistry "")
      (take 1 (replicate 9 (intVar "v", ""))) = Ret m1
    ∧ names m1 = names (newMethodScope emptyRegistry "") ++ ["v"]
    ∧ conflicted m1 = conflicted (newMethodScope emptyRegistry "")
    ∧ AddVars (fun _ => "x") map_to_list (newMethodScope emptyRegistry "")
        (replicate 9 (intVar "v", "")) = Ret m'
    ∧ names m' = names (newMethodScope emptyRegistry "")
                 ++ numbered "v" (length (replicate 9 (intVar "v", "")))
    ∧ conflicted m' = <["v" := true]> (conflicted (newMethodScope emptyRegistry ""))
    ∧ registry m' = registry (newMethodScope emptyRegistry "").
Proof.
  apply (AddVars_same_name_numbered (fun _ => "x") map_to_list
           (newMethodScope emptyRegistry "") "v" (replicate 9 (intVar "v", ""))).
  - apply not_elem_of_nil.
  - intros n _. apply not_elem_of_nil.
  - reflexivity.
  - apply Forall_replicate. intros [r path vs cf] Hreg.
    simpl in Hreg. subst r. eexists. reflexivity.
  - simpl. lia.
  - vm_compute. reflexivity.
Defined.

Lemma AddVar_registers_packages_witness :
  ∃ v, vars handlersScope !! 0%nat = Some v
       ∧ registry.vr v = handlersVar
       ∧ ∀ tp, owns (types.VarType handlersVar) tp →
           ∃ p, lookupPath (registry handlersScope) (stripVendorPath (types.Path tp)) = Some p
                ∧ imports v !! stripVendorPath (types.Path tp) = Some (Some p).
Proof.
  apply (AddVar_registers_packages (fun _ => "x") map_to_list
           (newMethodScope emptyRegistry "") handlersScope handlersVar "" 0%nat).
  vm_compute. reflexivity.
Defined.

Lemma AddVars_range_order_witness :
  AddVars (fun _ => "x") map_to_list (newMethodScope emptyRegistry "")
    [(intVar "context", ""); (handlersVar, "")]
  = AddVars (fun _ => "x") backwards (newMethodScope emptyRegistry "")
      [(intVar "context", ""); (handlersVar, "")].
Proof.
  apply (AddVars_range_order (fun _ => "x") map_to_list backwards
           [(intVar "context", ""); (handlersVar, "")]
           (newMethodScope emptyRegistry "")).
  - apply range_order_map_to_list.
  - apply range_order_backwards.
  - cbn [unrelatedThroughout]. split.
    + intros r imps [= <- <-]. intros k1 k2 p1 p2 q1 q2 Hk1. by rewrite lookup_empty in Hk1.
    + intros i m' Hadd. vm_compute in Hadd. injection Hadd as <- <-. split; [|done].
      intros r imps Hwalk.
      change (populateImports handlersType (emptyRegistry, ∅) = Ret (r, imps)) in Hwalk.
      rewrite handlersWalk_eq in Hwalk. injection Hwalk as <- <-.
      apply handlersWalk_unrelated.
Defined.

Lemma run_writes_after_generation_witness :
  run unit newMocker failingMock dirOf mockFlags staleWorld = (Some noInterface, clearedWorld)
  ∧ stdout clearedWorld = stdout staleWorld
  ∧ (∀ name data, Wrote name data ∈ log clearedWorld → Wrote name data ∈ log staleWorld)
  ∧ (∀ name, files clearedWorld !! name = files staleWorld !! name
             ∨ files clearedWorld !! name = None).
Proof.
  destruct (run_writes_after_generation newMocker failingMock dirOf mockFlags staleWorld)
    as (Hfailed & _ & _); [discriminate|].
  apply (Hfailed clearedWorld noInterface); [simpl; lia|reflexivity|reflexivity].
Defined.

Lemma run_removes_first_witness :
  ∃ w1, removeOutput mockFlags staleWorld = (None, w1)
        ∧ files w1 = delete (outFile mockFlags) (files staleWorld)
        ∧ (files staleWorld !! outFile mockFlags = None → w1 = staleWorld)
        ∧ run unit newMocker failingMock dirOf mockFlags staleWorld
          = run unit newMocker failingMock dirOf (withoutRemove mockFlags) w1
        ∧ ∀ err, generation unit newMocker failingMock mockFlags w1 = inl err →
                 run unit newMocker failingMock dirOf mockFlags staleWorld = (Some err, w1)
                 ∧ files (run unit newMocker failingMock dirOf mockFlags staleWorld).2
                     !! outFile mockFlags = None.
Proof.
  apply (run_removes_first newMocker failingMock dirOf mockFlags staleWorld).
  - reflexivity.
  - discriminate.
  - simpl. lia.
  - vm_compute. intros H. inversion H.
Defined.

Lemma uniqueName_last_components_witness :
  uniqueName goBar 1
  = Ret (joined (sanitised <$>
           drop (length (strings.Split "github.com/foo/go-bar" "/") - (Z.to_nat 1 + 1))
                (strings.Split "github.com/foo/go-bar" "/"))).
Proof.
  apply (uniqueName_last_components goBar "github.com/foo/go-bar" 1);
    [reflexivity|lia].
Defined.

Lemma uniqueName_no_round_witness : uniqueName goBar (-1) = Ret "".
Proof.
  apply (uniqueName_no_round goBar "github.com/foo/go-bar" (-1)); [reflexivity|].
  left. lia.
Defined.

Lemma uniqueName_clean_witness :
  Forall (fun c => (c ∉ strippedBytes) ∧ ¬ capital c) (bytes "foobar").
Proof.
  apply (uniqueName_clean goBar 1 "foobar").
  - intros s _. apply lowerASCII_clean.
  - reflexivity.
Defined.

Lemma resolveVarNameConflict_ends_witness :
  resolveVarNameConflict_from 7 (scopeOf emptyRegistry ["v"; "v1"]) "v" 1
  = resolveVarNameConflict (scopeOf emptyRegistry ["v"; "v1"]) "v"
  ∧ resolveVarNameConflict (scopeOf emptyRegistry ["v"; "v1"]) "v" ≠ Diverge.
Proof.
  apply (resolveVarNameConflict_ends (scopeOf emptyRegistry ["v"; "v1"]) "v" 7).
  - vm_compute. reflexivity.
  - simpl. lia.
Defined.

Lemma resolveVarNameConflict_panics_witness :
  resolveVarNameConflict orphanScope "v" = Panic
  ↔ ("v" ∉ names orphanScope) ∧ ("v" +:+ "1" ∉ names orphanScope).
Proof.
  apply (resolveVarNameConflict_panics orphanScope "v").
  vm_compute. reflexivity.
Defined.

Lemma AddVar_first_collision_witness :
  AddVar (fun _ => "x") map_to_list (scopeOf emptyRegistry ["v"; "v2"]) (intVar "v") ""
  = Ret (length (vars (scopeOf emptyRegistry ["v"; "v2"])),
         appendVar
           {| registry := registry (scopeOf emptyRegistry ["v"; "v2"]);
              miripPkgPath := miripPkgPath (scopeOf emptyRegistry ["v"; "v2"]);
              vars := alter (appendName "1") 0%nat (vars (scopeOf emptyRegistry ["v"; "v2"]));
              conflicted := <["v" := true]> (conflicted (scopeOf emptyRegistry ["v"; "v2"])) |}
           {| vr := intVar "v"; imports := ∅;
              pkgPath := miripPkgPath (scopeOf emptyRegistry ["v"; "v2"]);
              Name := "v" +:+ "2" |}).
Proof.
  apply (AddVar_first_collision (fun _ => "x") map_to_list
           (scopeOf emptyRegistry ["v"; "v2"]) (intVar "v") "" ∅
           (scopeOf emptyRegistry ["v"; "v2"]) "v" 0%nat).
  - reflexivity.
  - reflexivity.
  - apply (bool_decide_unpack _). vm_compute. exact I.
  - vm_compute. reflexivity.
Defined.

Lemma AddVar_panics_witness :
  AddVar (fun _ => "x") map_to_list orphanScope (intVar "v") "" = Panic.
Proof.
  apply (AddVar_panics (fun _ => "x") map_to_list orphanScope (intVar "v") "" ∅
           orphanScope "v").
  - reflexivity.
  - reflexivity.
  - apply (bool_decide_unpack _). vm_compute. exact I.
  - apply (bool_decide_unpack _). vm_compute. exact I.
  - vm_compute. reflexivity.
Defined.

Lemma AddVar_keeps_earlier_witness :
  ∃ earlier v,
    vars collidedScope = earlier ++ [v]
    ∧ Forall2 extended (vars (scopeOf emptyRegistry ["v"; "v2"])) earlier
    ∧ 2%nat = length (vars (scopeOf emptyRegistry ["v"; "v2"]))
    ∧ registry.vr v = intVar "v".
Proof.
  apply (AddVar_keeps_earlier (fun _ => "x") map_to_list
           (scopeOf emptyRegistry ["v"; "v2"]) collidedScope (intVar "v") "" 2%nat).
  vm_compute. reflexivity.
Defined.

Lemma AddVar_conflicted_grows_witness :
  (∀ name, conflicted (scopeOf emptyRegistry ["v"; "v2"]) !! name = Some true →
           conflicted collidedScope !! name = Some true)
  ∧ (conflicted collidedScope = conflicted (scopeOf emptyRegistry ["v"; "v2"])
     ∨ ∃ name, conflicted collidedScope
               = <[name := true]> (conflicted (scopeOf emptyRegistry ["v"; "v2"]))).
Proof.
  apply (AddVar_conflicted_grows (fun _ => "x") map_to_list
           (scopeOf emptyRegistry ["v"; "v2"]) collidedScope (intVar "v") "" 2%nat).
  vm_compute. reflexivity.
Defined.

Lemma AddVar_keeps_names_distinct_witness : NoDup (names numberedScope).
Proof.
  apply (AddVar_keeps_names_distinct (fun _ => "x") map_to_list
           (scopeOf emptyRegistry ["v"; "v1"]) (scopeOf emptyRegistry ["v"; "v1"])
           numberedScope (intVar "v") "" ∅ "v" 2%nat).
  - reflexivity.
  - apply (bool_decide_unpack _). vm_compute. exact I.
  - left. apply (bool_decide_unpack _). vm_compute. exact I.
  - vm_compute. reflexivity.
  - vm_compute. reflexivity.
Defined.

Lemma resolveImportVarConflicts_frees_witness :
  Qualifier (Some {| pkg := Some contextPkg; Alias := "" |}) = Ret "context"
  ∧ ("context" ∉ names clearedScope).
Proof.
  split; [reflexivity|].
  apply (resolveImportVarConflicts_frees (scopeOf emptyRegistry ["context"; "http"])
           clearedScope (map_to_list handlersWalk.2))
    with (p := Some {| pkg := Some contextPkg; Alias := "" |}).
  - apply (bool_decide_unpack _). vm_compute. exact I.
  - apply unrelatedQualifiers_range, handlersWalk_unrelated.
  - vm_compute. reflexivity.
  - vm_compute. repeat constructor.
  - reflexivity.
Defined.

Lemma populateImports_without_packages_witness :
  populateImports plainType (emptyRegistry, ∅) = Ret (emptyRegistry, ∅).
Proof.
  apply (populateImports_without_packages plainType). apply plainType_owned_by_none.
Defined.

Lemma populateImports_frame_witness :
  (handlersWalk.1, handlersWalk.2).2 !! "fmt"
  = (emptyRegistry, (∅ : gmap string (option Package))).2 !! "fmt".
Proof.
  apply (populateImports_frame handlersType "fmt").
  - intros tp [->|[->| ->]]%handlersType_owners; by vm_compute.
  - apply handlersWalk_eq.
Defined.

Lemma varName_unnamed_witness :
  (varName (fun _ => "string") (stringVar "_") "" ∉ reservedNames)
  ∧ ((fun _ => "string") (types.VarType (stringVar "_")) +:+ "" ∉ reservedNames →
     varName (fun _ => "string") (stringVar "_") ""
     = (fun _ => "string") (types.VarType (stringVar "_")) +:+ "")
  ∧ ((fun _ => "string") (types.VarType (stringVar "_")) +:+ "" ∈ reservedNames →
     varName (fun _ => "string") (stringVar "_") ""
     = ((fun _ => "string") (types.VarType (stringVar "_")) +:+ "") +:+ "MiripParam").
Proof.
  apply (varName_unnamed (fun _ => "string") (stringVar "_") "").
  right. reflexivity.
Defined.

Lemma run_to_stdout_witness :
  files (run unit newMocker failingMock dirOf stdoutFlags staleWorld).2 = files staleWorld
  ∧ dirs (run unit newMocker failingMock dirOf stdoutFlags staleWorld).2 = dirs staleWorld
  ∧ ∀ mocker buf err,
      (2 ≤ length (args stdoutFlags))%nat →
      newMocker staleWorld (config stdoutFlags) = inl mocker →
      failingMock staleWorld mocker (drop 1 (args stdoutFlags)) = (buf, err) →
      run unit newMocker failingMock dirOf stdoutFlags staleWorld = (err, print buf staleWorld).
Proof.
  apply (run_to_stdout newMocker failingMock dirOf stdoutFlags staleWorld).
  reflexivity.
Defined.

Lemma run_writes_output_witness :
  (dirOf (outFile mockFlags) ∉ denied clearedWorld →
   outFile mockFlags ∉ denied clearedWorld →
   ∃ w2, run unit newMocker workingMock dirOf mockFlags staleWorld = (None, w2)
         ∧ files w2 = <[outFile mockFlags := "package mock; type ServiceMock struct{}"]>
                        (files clearedWorld)
         ∧ stdout w2 = stdout staleWorld)
  ∧ (dirOf (outFile mockFlags) ∈ denied clearedWorld →
     ∃ err, run unit newMocker workingMock dirOf mockFlags staleWorld
            = (Some err, clearedWorld)).
Proof.
  apply (run_writes_output newMocker workingMock dirOf mockFlags staleWorld clearedWorld
           "package mock; type ServiceMock struct{}").
  - discriminate.
  - simpl. lia.
  - reflexivity.
  - reflexivity.
Defined.

Lemma AddVar_free_name_witness :
  AddVar (fun _ => "x") map_to_list (scopeOf emptyRegistry ["v"; "v1"]) (intVar "w") ""
  = Ret (length (vars (scopeOf emptyRegistry ["v"; "v1"])),
         appendVar (scopeOf emptyRegistry ["v"; "v1"])
           {| vr := intVar "w"; imports := ∅;
              pkgPath := miripPkgPath (scopeOf emptyRegistry ["v"; "v1"]);
              Name := "w" |}).
Proof.
  apply (AddVar_free_name (fun _ => "x") map_to_list
           (scopeOf emptyRegistry ["v"; "v1"]) (intVar "w") "" ∅
           (scopeOf emptyRegistry ["v"; "v1"]) "w").
  - reflexivity.
  - apply (bool_decide_unpack _). vm_compute. exact I.
  - reflexivity.
Defined.

Lemma AddVars_one_per_call_witness :
  ∃ earlier added,
    vars collidedScope = earlier ++ added
    ∧ Forall2 extended (vars (scopeOf emptyRegistry ["v"; "v2"])) earlier
    ∧ Forall2 (fun call v => registry.vr v = call.1) [(intVar "v", "")] added.
Proof.
  apply (AddVars_one_per_call (fun _ => "x") map_to_list [(intVar "v", "")]
           (scopeOf emptyRegistry ["v"; "v2"]) collidedScope).
  vm_compute. reflexivity.
Defined.

Lemma uniqueName_tells_apart_witness :
  ∃ lvl, 0 ≤ lvl < Z.of_nat (length (strings.Split "github.com/foo/go-bar" "/"))
         ∧ uniqueName goBar lvl
           ≠ uniqueName {| pkg := Some (barAt "github.com/baz/bar"); Alias := "" |} lvl.
Proof.
  apply (uniqueName_tells_apart goBar
           {| pkg := Some (barAt "github.com/baz/bar"); Alias := "" |}
           "github.com/foo/go-bar" "github.com/baz/bar").
  - reflexivity.
  - reflexivity.
  - reflexivity.
  - vm_compute. reflexivity.
  - vm_compute. discriminate.
Defined.

End Instances.
